(** * kubectl-foreach: a shallow embedding of [main.go]

    Go strings are immutable byte sequences; they are modelled as lists of
    8-bit characters.  Go's [int] values that matter here (indices, lengths,
    the [-c] flag) are modelled as [Z] or [nat]; no arithmetic on them can
    overflow in the functions below. *)

From Stdlib Require Import ZArith Lia Ascii String.
From stdpp Require Import base list strings gmap.

Local Open Scope Z_scope.

(** ** Go strings *)

Abbreviation bytes := (list ascii).

(** A string literal of the source. *)
Definition str (s : string) : bytes := String.list_ascii_of_string s.

(** The byte [\n]. *)
Definition nl : ascii := "010"%char.

(** [a[i]] on a Go slice: [None] stands for the run-time panic "index out of
    range". *)
Definition index {A} (a : list A) (i : Z) : option A :=
  if i <? 0 then None else a !! Z.to_nat i.

Definition len {A} (a : list A) : Z := Z.of_nat (length a).

(** ** [trimSuffix] (main.go, lines 290-300) *)

(** The [for] loop of [trimSuffix].  [n] is [j + 1], so the loop condition
    [j >= 0] is [n > 0]; [i] runs down in step with [j].  The result is
    [Some false] when the loop body returns [a] early, [Some true] when the
    loop runs to completion, [None] when an index is out of range. *)
Fixpoint trimSuffix_loop (a suffix : list bytes) (i : Z) (n : nat) : option bool :=
  match n with
  | O => Some true
  | S j =>
      match index a i, suffix !! j with
      | Some x, Some y =>
          if decide (x ≠ y) then Some false
          else trimSuffix_loop a suffix (i - 1) j
      | _, _ => None
      end
  end.

Definition trimSuffix (a suffix : list bytes) : option (list bytes) :=
  if len suffix >? len a then Some a
  else
    match trimSuffix_loop a suffix (len a - 1) (length suffix) with
    | Some false => Some a
    | Some true => Some (take (Z.to_nat (len a - len suffix)) a)
    | None => None
    end.

(** ** The parts of Go's [strings] package that [main.go] calls *)

Module strings.

(** [strings.HasPrefix(s, prefix)]. *)
Fixpoint HasPrefix (s prefix : bytes) {struct prefix} : bool :=
  match prefix, s with
  | [], _ => true
  | _ :: _, [] => false
  | p :: prefix', c :: s' => bool_decide (c = p) && HasPrefix s' prefix'
  end.

(** [strings.Index(s, substr)]: the offset of the first occurrence of
    [substr] in [s]; [None] stands for Go's [-1]. *)
Fixpoint Index (s substr : bytes) : option nat :=
  if HasPrefix s substr then Some 0%nat
  else match s with
       | [] => None
       | _ :: s' => S <$> Index s' substr
       end.

(** The loop of [strings.Count(s, substr)] for a non-empty [substr]: count
    non-overlapping occurrences from the left.  Every round drops at least
    one byte of [s], so [length s] rounds always suffice (lemma
    [Count_loop_fuel]). *)
Fixpoint Count_loop (fuel : nat) (s substr : bytes) : nat :=
  match fuel with
  | O => O
  | S fuel =>
      match Index s substr with
      | None => O
      | Some i => S (Count_loop fuel (drop (i + length substr) s) substr)
      end
  end.

(** [strings.Count(s, substr)].  [main.go] only reaches it with a non-empty
    [substr]; for an empty one Go counts UTF-8 sequences instead, which is
    outside this model. *)
Definition Count (s substr : bytes) : nat := Count_loop (length s) s substr.

(** The replacement loop of [strings.Replace]: [n] times, copy the text up
    to the next occurrence of [old], then [new], and continue behind the
    occurrence; at the end copy what is left. *)
Fixpoint Replace_loop (n : nat) (s old new : bytes) : bytes :=
  match n with
  | O => s
  | S n =>
      match Index s old with
      | None => s
      | Some j => take j s ++ new ++ Replace_loop n (drop (j + length old) s) old new
      end
  end.

(** [strings.Replace(s, old, new, -1)] for a non-empty [old], the only case
    [replaceArgs] reaches. *)
Definition Replace (s old new : bytes) : bytes :=
  if decide (old = new) then s
  else match Count s old with
       | O => s
       | n => Replace_loop n s old new
       end.

(** The loop of [strings.Split]'s helper [genSplit] with [n - 1] cuts left. *)
Fixpoint Split_loop (n : nat) (s sep : bytes) : list bytes :=
  match n with
  | O => [s]
  | S n =>
      match Index s sep with
      | None => [s]
      | Some m => take m s :: Split_loop n (drop (m + length sep) s) sep
      end
  end.

(** [strings.Split(s, sep)] for a non-empty [sep]; [kubeContexts] passes the
    one-byte separator ["\n"]. *)
Definition Split (s sep : bytes) : list bytes := Split_loop (Count s sep) s sep.

(** [strings.Repeat(s, count)]; a negative [count] panics ([None]). *)
Definition Repeat (s : bytes) (count : Z) : option bytes :=
  if count <? 0 then None else Some (concat (replicate (Z.to_nat count) s)).

(** The UTF-8 encodings of the code points for which [unicode.IsSpace]
    holds: U+0009..U+000D, U+0020, U+0085, U+00A0, U+1680, U+2000..U+200A,
    U+2028, U+2029, U+202F, U+205F and U+3000. *)
Definition spaceRunes : list bytes :=
  ((λ c, [c]) <$> ["009"; "010"; "011"; "012"; "013"; " "]%char)
  ++ [ ["194"; "133"]; ["194"; "160"]; ["225"; "154"; "128"] ]%char
  ++ ((λ c, ["226"; "128"; c]%char) <$>
       ["128"; "129"; "130"; "131"; "132"; "133"; "134"; "135"; "136";
        "137"; "138"; "168"; "169"; "175"]%char)
  ++ [ ["226"; "129"; "159"]; ["227"; "128"; "128"] ]%char.

(** The number of bytes of the white space rune [s] starts with, if any. *)
Definition leadingSpace (s : bytes) : option nat :=
  (λ r, length r.2) <$> list_find (HasPrefix s) spaceRunes.

(** [strings.TrimLeftFunc(s, unicode.IsSpace)]: drop white space runes from
    the left; at most [length s] runes can be dropped. *)
Fixpoint trimLeft_loop (fuel : nat) (s : bytes) : bytes :=
  match fuel with
  | O => s
  | S fuel =>
      match leadingSpace s with
      | None => s
      | Some k => trimLeft_loop fuel (drop k s)
      end
  end.

Definition TrimLeftSpace (s : bytes) : bytes := trimLeft_loop (length s) s.

(** The number of bytes of the white space rune [s] ends with, if any. *)
Definition trailingSpace (s : bytes) : option nat :=
  (λ r, length r.2) <$>
    list_find (λ r, HasPrefix (reverse s) (reverse r)) spaceRunes.

Fixpoint trimRight_loop (fuel : nat) (s : bytes) : bytes :=
  match fuel with
  | O => s
  | S fuel =>
      match trailingSpace s with
      | None => s
      | Some k => trimRight_loop fuel (take (length s - k) s)
      end
  end.

Definition TrimRightSpace (s : bytes) : bytes := trimRight_loop (length s) s.

(** [strings.TrimSpace(s)]: [s] without leading and trailing white space. *)
Definition TrimSpace (s : bytes) : bytes := TrimRightSpace (TrimLeftSpace s).

End strings.

(** ** [replaceArgs] (main.go, lines 151-162) *)

(** The closure returned by [replaceArgs args repl], applied to [ctx].  The
    [for i := range args] loop fills the slice [out], allocated with
    [len(args)] empty strings, index by index. *)
Definition replaceArgs (args : list bytes) (repl : bytes) : bytes → list bytes :=
  λ ctx,
    if decide (repl = []) then (str "--context=" ++ ctx) :: args
    else
      let out := replicate (length args) [] in
      foldl (λ out i, <[i := strings.Replace (args !!! i) repl ctx]> out)
            out (seq 0 (length args)).

(** ** [kubeContexts] (main.go, lines 164-173) *)

(** What [cmd.Run()] of [kubectl config get-contexts -o=name] did: it failed
    with an error message, or it succeeded and left [stdout] in the buffer. *)
Inductive cmdResult :=
| CmdFailed (err : bytes)
| CmdOk (stdout : bytes).

(** A Go [(value, error)] result: [inl] is the value with a [nil] error. *)
Definition kubeContexts (run : cmdResult) : list bytes + bytes :=
  match run with
  | CmdFailed err => inr (str "failed to get contexts: " ++ err)
  | CmdOk b => inl (strings.Split (strings.TrimSpace b) [nl])
  end.

(** ** What "every occurrence is replaced" means

    [occurs sub s]: the byte string [sub] occurs somewhere in [s]. *)
Definition occurs (sub s : bytes) : Prop := ∃ pre post, s = pre ++ sub ++ post.

(** [ReplacedAll old new s out]: [out] is [s] with the occurrences of [old]
    replaced by [new], found from left to right, each search resuming behind
    the occurrence just replaced (so occurrences never overlap). *)
Inductive ReplacedAll (old new : bytes) : bytes → bytes → Prop :=
| ReplacedAll_none s :
    ¬ occurs old s → ReplacedAll old new s s
| ReplacedAll_next pre rest out :
    (∀ p q, pre ++ old ++ rest = p ++ old ++ q → (length pre ≤ length p)%nat) →
    ReplacedAll old new rest out →
    ReplacedAll old new (pre ++ old ++ rest) (pre ++ new ++ out).

(** A string made of white space runes only. *)
Inductive whitespace : bytes → Prop :=
| whitespace_nil : whitespace []
| whitespace_rune r s :
    r ∈ strings.spaceRunes → whitespace s → whitespace (r ++ s).

(** ** Output sinks and prefixing writers

    [main] wraps [os.Stdout] and [os.Stderr] in one [synchronizedWriter]
    each. *)
Inductive sink := SyncStdout | SyncStderr.

(** The struct literal [&prefixingWriter{prefix: prefix, w: stdout}]: a writer
    holds its finished label and the sink it forwards to. *)
Record prefixingWriter := { prefix : bytes; w : sink }.

(** What one goroutine of [runAll] runs: [run(ctx, argMaker(kctx), wo, we)]. *)
Record task := { argv : list bytes; wo : prefixingWriter; we : prefixingWriter }.

(** The errgroup after the dispatch loop: its limit and its tasks, in
    dispatch order. *)
Record pool := { limit : Z; tasks : list task }.

(** ** The palette of [runAll] (main.go, lines 189-228)

    A palette entry is a chain of gchalk builder calls ending in [.Sprintf]. *)
Inductive modifier :=
| WithRed | WithBlue | WithGreen | WithYellow | WithGray | WithMagenta
| WithCyan | WithWhite | WithBlack
| WithBrightRed | WithBrightBlue | WithBrightGreen | WithBrightMagenta
| WithBrightYellow | WithBrightCyan | WithBrightWhite
| WithBgRed | WithBgBlue | WithBgCyan | WithBgGreen | WithBgMagenta
| WithBgYellow | WithBgGray | WithBgBlack
| WithBgBrightRed | WithBgBrightBlue | WithBgBrightCyan | WithBgBrightGreen
| WithBgBrightMagenta | WithBgBrightYellow | WithBgBrightWhite.

Definition colors : list (list modifier) :=
  [ (* foreground only *)
    [WithRed]; [WithBlue]; [WithGreen]; [WithYellow; WithBgBlack]; [WithGray];
    [WithMagenta]; [WithCyan]; [WithBrightRed];
    [WithBrightBlue]; [WithBrightGreen]; [WithBrightMagenta];
    [WithBrightYellow; WithBgBlack]; [WithBrightCyan];
    (* inverse *)
    [WithBgRed; WithWhite]; [WithBgBlue; WithWhite]; [WithBgCyan; WithBlack];
    [WithBgGreen; WithBlack]; [WithBgMagenta; WithBrightWhite];
    [WithBgYellow; WithBlack]; [WithBgGray; WithWhite];
    [WithBgBrightRed; WithWhite]; [WithBgBrightBlue; WithWhite];
    [WithBgBrightCyan; WithBlack]; [WithBgBrightGreen; WithBlack];
    [WithBgBrightMagenta; WithBlack]; [WithBgBrightYellow; WithBlack];
    (* mixes+inverses *)
    [WithBgRed; WithYellow]; [WithBgYellow; WithRed]; [WithBgBlue; WithYellow];
    [WithBgYellow; WithBlue]; [WithBgBlack; WithBrightWhite];
    [WithBgBrightWhite; WithBlack] ].

(** ** Filters

    The type [filter] and the functions [parseFilter] and [matchContexts] are
    declared in a source file other than [main.go]. *)
Inductive filterKind := Exact | Regex.

Record filter := { kind : filterKind; negate : bool; pattern : bytes }.

(** ** Flags (main.go, lines 44-47) *)

Record flags := {
  repl : bytes;    (* -I *)
  workers : Z;     (* -c *)
  quiet : bool     (* -q *)
}.

Definition flagDefaults : flags := {| repl := []; workers := 0; quiet := false |}.

(** What [fl.Parse] did: it set the flags and left the positional arguments
    [fl.Args()], or it failed ([help] when the error is [flag.ErrHelp]). *)
Inductive parseResult :=
| ParseOk (f : flags) (positional : list bytes)
| ParseErr (help : bool) (msg : bytes).

(** ** The world around one run

    Everything [main] obtains from outside [main.go]: the operating system,
    the packages [flag], [regexp] and gchalk, the functions of the repository
    that live in other source files, and the outcome of what runs
    concurrently ([promptResult] is one of the errors that the transition
    system of [prompt] below can return; [Wait] is the error of the first task
    to fail, if any).  [Sprintf] receives the palette entry and the single
    argument [runAll] passes, the target name. *)
Record World := {
  osArgs : list bytes;                                   (* os.Args[1:] *)
  Getenv : bytes → bytes;                                (* os.Getenv *)
  flagParse : flags → list bytes → parseResult;          (* fl.Parse *)
  separateArgs : list bytes → list bytes * list bytes * option bytes;
  getContexts : cmdResult;                               (* cmd.Run in kubeContexts *)
  parseFilter : bytes → filter + bytes;
  regexpMatch : bytes → bytes → bool;                    (* pattern, name *)
  promptResult : option bytes;                           (* the error prompt returns *)
  Wait : pool → option bytes;                            (* wg.Wait() *)
  gray : bytes → bytes;                                  (* chalk.Gray *)
  red : bytes → bytes;                                   (* chalk.Red *)
  Sprintf : list modifier → bytes → bytes                (* the chain's Sprintf *)
}.

(** ** [maxLen] (main.go, lines 244-252) *)
Definition maxLen (s : list bytes) : Z :=
  foldl (λ max v, if len v >? max then len v else max) 0 s.

(** ** [runAll] (main.go, lines 175-242) *)

(** The closure [leftPad] of [runAll]; it captures [maxLen]. *)
Definition leftPad (maxLen : Z) (s : bytes) (origLen : Z) : option bytes :=
  pad ← strings.Repeat (str " ") (maxLen - origLen); Some (pad ++ s).

(** The body of the dispatch loop for the [i]-th target [kctx]: pick the
    palette entry, build the label and the two writers. *)
Definition runAll_task (world : World) (maxLen : Z) (argMaker : bytes → list bytes)
    (stdout stderr : sink) (i : nat) (kctx : bytes) : option task :=
  colFn ← colors !! (i mod length colors)%nat;
  label ← leftPad maxLen (Sprintf world colFn kctx) (len kctx);
  let prefix := label ++ str " | " in
  Some {| argv := argMaker kctx;
          wo := {| prefix := prefix; w := stdout |};
          we := {| prefix := prefix; w := stderr |} |}.

(** [runAll] up to [wg.Wait()]: the limit given to [wg.SetLimit] and the
    tasks given to [wg.Go].  [workers] is the value of the flag [-c].  [None]
    stands for a run-time panic. *)
Definition runAll (world : World) (workers : Z) (kubeCtxs : list bytes)
    (argMaker : bytes → list bytes) (stdout stderr : sink) : option pool :=
  let n := len kubeCtxs in
  let n := if workers >? 0 then workers else n in
  let maxLen := maxLen kubeCtxs in
  tasks ← mapM id (imap (runAll_task world maxLen argMaker stdout stderr) kubeCtxs);
  Some {| limit := n; tasks := tasks |}.

(** ** The filter engine *)

(** A filter's pattern against a target name: string equality for [Exact],
    a match of the whole name for [Regex] (the matcher [regexMatch] belongs to
    the regular expression package and takes the pattern and the name). *)
Definition filterMatches (regexMatch : bytes → bytes → bool) (f : filter)
    (name : bytes) : bool :=
  match kind f with
  | Exact => bool_decide (name = pattern f)
  | Regex => regexMatch (pattern f) name
  end.

(** Modelled from the spec: [matchContexts], which [main] calls and which is
    declared in a source file that is not part of this development.  With no
    filter the raw list is returned unchanged.  Otherwise the selected set
    starts empty if there is a non-negating filter and as the full raw set if
    not; the filters are applied from left to right, a non-negating one adding
    the raw targets it matches and a negating one removing them; the result
    keeps, in raw order, the raw targets that are in the selected set. *)
Definition matchContexts (regexMatch : bytes → bytes → bool)
    (raw : list bytes) (filters : list filter) : list bytes :=
  match filters with
  | [] => raw
  | _ =>
      let matched f : gset bytes :=
        list_to_set (base.filter (λ name, filterMatches regexMatch f name) raw) in
      let init : gset bytes :=
        if existsb (λ f, negb (negate f)) filters then ∅ else list_to_set raw in
      let selected :=
        foldl (λ sel f, if negate f then sel ∖ matched f else sel ∪ matched f)
              init filters in
      base.filter (λ name, name ∈ selected) raw
  end.

(** ** [prompt] (main.go, lines 261-288)

    [prompt] starts a goroutine that scans one line and sends on [scanDone],
    and then waits in a [select] for that channel or for [ctx.Done()].  The
    model is a transition system over the scanning goroutine's position, the
    state of the context, and what [prompt] has returned, if it has. *)

Definition errRefused : bytes := str "user refused execution".
Definition errCanceled : bytes := str "prompt canceled".

(** The test of line 273 on the scanned text [v]. *)
Definition accepted (v : bytes) : bool :=
  bool_decide (v = str "y") || bool_decide (v = str "Y") || bool_decide (v = []).

(** Where the scanning goroutine is. *)
Inductive scannerPc :=
| InScan        (* in [s.Scan()], line 271: no line has been read yet *)
| AtSendNil     (* at [scanDone <- nil], line 274 *)
| AtSendErr     (* at [scanDone <- errors.New(...)], line 278 *)
| ScannerExited.

Record promptState := {
  scanner : scannerPc;
  ctxDone : bool;                    (* [ctx.Done()] is closed *)
  returned : option (option bytes)   (* [Some err] once [prompt] returned [err] *)
}.

Definition promptInit : promptState :=
  {| scanner := InScan; ctxDone := false; returned := None |}.

(** One step of [prompt] and its environment.  [input] is what the first
    [s.Scan()] has to offer once the reader delivers: [Some v] is a line whose
    text, as [s.Text()] hands it over (without the end-of-line marker), is
    [v]; [None] is a scan that fails without a line, which before [prompt]
    returns happens when the line outgrows the scanner's buffer
    ([bufio.ErrTooLong]).  The end of the input is no step: [io.Copy] leaves
    the pipe open (line 265 closes it only when [prompt] returns), so at the
    end of the input the scanner keeps waiting.
    A channel send and the [select] case receiving it are one step, since
    [scanDone] is unbuffered.  What the goroutine does after [prompt] has
    returned is of no consequence for the result and is left out. *)
Inductive prompt_step (input : option bytes) : promptState → promptState → Prop :=
| step_scan_line v d r :
    input = Some v →
    prompt_step input
      {| scanner := InScan; ctxDone := d; returned := r |}
      {| scanner := if accepted v then AtSendNil else AtSendErr;
         ctxDone := d; returned := r |}
| step_scan_end d r :
    input = None →
    prompt_step input
      {| scanner := InScan; ctxDone := d; returned := r |}
      {| scanner := AtSendErr; ctxDone := d; returned := r |}
| step_cancel pc r :
    prompt_step input
      {| scanner := pc; ctxDone := false; returned := r |}
      {| scanner := pc; ctxDone := true; returned := r |}
| step_recv_nil d :
    prompt_step input
      {| scanner := AtSendNil; ctxDone := d; returned := None |}
      {| scanner := AtSendErr; ctxDone := d; returned := Some None |}
| step_recv_err d :
    prompt_step input
      {| scanner := AtSendErr; ctxDone := d; returned := None |}
      {| scanner := ScannerExited; ctxDone := d; returned := Some (Some errRefused) |}
| step_recv_done pc :
    prompt_step input
      {| scanner := pc; ctxDone := true; returned := None |}
      {| scanner := pc; ctxDone := true; returned := Some (Some errCanceled) |}.

(** The states a run of [prompt] on [input] can reach. *)
Definition prompt_reaches (input : option bytes) (s : promptState) : Prop :=
  rtc (prompt_step input) promptInit s.

(** What holds in every state of a run in which the first scan yields the
    line [v]. *)
Definition prompt_inv (v : bytes) (s : promptState) : Prop :=
  match returned s with
  | None =>
      scanner s = InScan ∨
      (scanner s = AtSendNil ∧ accepted v = true) ∨
      (scanner s = AtSendErr ∧ accepted v = false)
  | Some None => accepted v = true
  | Some (Some err) =>
      (err = errRefused ∧ accepted v = false) ∨
      (err = errCanceled ∧ ctxDone s = true)
  end.

(** ** [main] (main.go, lines 73-149) *)

(** What a run does that can be seen from outside, in order. *)
Inductive event :=
| Stderr (text : bytes)   (* written to [os.Stderr] *)
| ReadPrompt              (* [prompt(ctx, os.Stdin)] ran *)
| Dispatch (p : pool)     (* the tasks were handed to the errgroup *)
| Exit (code : Z)         (* [os.Exit(code)] *)
| Panic.                  (* a run-time panic ended the process *)

(** A piece of [main]: the events it produces and, unless it ended the
    process, its value. *)
Definition M (A : Type) : Type := list event * option A.

#[global] Instance M_ret : MRet M := λ A a, ([], Some a).

#[global] Instance M_bind : MBind M := λ A B k m,
  match m.2 with
  | None => (m.1, None)
  | Some a => (m.1 ++ (k a).1, (k a).2)
  end.

Definition emit (e : event) : M () := ([e], Some ()).

Definition halt {A} (e : event) : M A := ([e], None).

Definition envDisablePrompts : bytes := str "ALLCTX_DISABLE_PROMPTS".

(** [printErrAndExit] (lines 50-53). *)
Definition printErrAndExit {A} (world : World) (msg : bytes) : M A :=
  emit (Stderr (red world (str "error: ") ++ msg ++ [nl])) ;; halt (Exit 1).

Definition usage : bytes :=
  concat ((λ l, str l ++ [nl]) <$>
    [ "Usage:";
      "    kubectl allctx [OPTIONS] [PATTERN]... -- [KUBECTL_ARGS...]";
      "";
      "Patterns can be used to match contexts in kubeconfig:";
      "      (empty): matches all contexts";
      "      PATTERN: matches context with exact name";
      "    /PATTERN/: matches context with regular expression";
      "     ^PATTERN: removes results from matched contexts";
      "    ";
      "Options:";
      "    -c=NUM       Limit parallel executions";
      "    -h/--help    Print help";
      "    -I=VAL       Replace VAL occuring in KUBECTL_ARGS with context name" ]).

(** [printUsage(os.Stderr)] (lines 55-71). *)
Definition printUsage {A} : M A := emit (Stderr usage) ;; halt (Exit 0).

(** A failing [fl.Parse]: before it returns its error the [flag] package
    prints the message (for [flag.ErrHelp] there is none) and calls
    [fl.Usage], which line 76 sets to [printUsage]; lines 79-82 follow. *)
Definition parseFailed {A} (world : World) (help : bool) (msg : bytes) : M A :=
  (if help then mret () else emit (Stderr (msg ++ [nl]))) ;;
  printUsage (A := ()) ;;
  (if help then printUsage else mret ()) ;;
  printErrAndExit world msg.

(** The loop of lines 111-117 over [fl.Args()]. *)
Fixpoint parseFilters (world : World) (args : list bytes) (filters : list filter)
  : M (list filter) :=
  match args with
  | [] => mret filters
  | arg :: args =>
      match parseFilter world arg with
      | inr err => printErrAndExit world err
      | inl f => parseFilters world args (filters ++ [f])
      end
  end.

(** Lines 78-117: everything up to the call of [matchContexts].  The value is
    the flags as the second [fl.Parse] left them, [kubectlArgs], [ctxs] and
    [filters].  The goroutine of lines 92-95, which reports an interrupt on
    the error stream whenever one arrives, is not part of the model. *)
Definition main_setup (world : World)
  : M (flags * list bytes * list bytes * list filter) :=
  fl1 ← match flagParse world flagDefaults (osArgs world) with
        | ParseErr help msg => parseFailed world help msg
        | ParseOk f _ => mret f
        end;
  kubectlArgs ← match separateArgs world (osArgs world) with
                | (_, _, Some err) =>
                    printErrAndExit world
                      (str "failed to parse command-line arguments: " ++ err)
                | (_, kubectlArgs, None) => mret kubectlArgs
                end;
  (if workers fl1 <? 0 then printErrAndExit world (str "-c < 0") else mret ()) ;;
  ctxs ← match kubeContexts (getContexts world) with
         | inr err => printErrAndExit world err
         | inl ctxs => mret ctxs
         end;
  own ← match trimSuffix (osArgs world) (str "--" :: kubectlArgs) with
        | None => halt Panic
        | Some own => mret own
        end;
  '(fl2, positional) ← match flagParse world fl1 own with
                       | ParseErr help msg => parseFailed world help msg
                       | ParseOk f positional => mret (f, positional)
                       end;
  filters ← parseFilters world positional [];
  mret (fl2, kubectlArgs, ctxs, filters).

(** Lines 125-140: the confirmation gate. *)
Definition main_confirm (world : World) (fl : flags) (ctxMatches : list bytes)
  : M () :=
  let list_targets : M () :=
    foldl (λ m c, m ;; emit (Stderr (gray world (str "  - " ++ c ++ [nl]))))
          (mret ()) ctxMatches in
  if decide (Getenv world envDisablePrompts = []) then
    if quiet fl then list_targets
    else
      emit (Stderr (str "Will run command in context(s):" ++ [nl])) ;;
      list_targets ;;
      emit (Stderr (str "Continue? [Y/n]: ")) ;;
      emit ReadPrompt ;;
      match promptResult world with
      | Some err => printErrAndExit world err
      | None => mret ()
      end
  else mret ().

(** Lines 142-148: dispatch the tasks and wait for them. *)
Definition main_dispatch (world : World) (fl : flags) (kubectlArgs : list bytes)
    (ctxMatches : list bytes) : M () :=
  match runAll world (workers fl) ctxMatches (replaceArgs kubectlArgs (repl fl))
               SyncStdout SyncStderr with
  | None => halt Panic
  | Some p =>
      emit (Dispatch p) ;;
      match Wait world p with
      | Some err => printErrAndExit world err
      | None => mret ()
      end
  end.

(** Lines 121-148: [main] from the Match Set on. *)
Definition main_run (world : World) (fl : flags) (kubectlArgs : list bytes)
    (ctxMatches : list bytes) : M () :=
  (if len ctxMatches =? 0
   then printErrAndExit world (str "query matched no contexts from kubeconfig")
   else mret ()) ;;
  main_confirm world fl ctxMatches ;;
  main_dispatch world fl kubectlArgs ctxMatches.

Definition main (world : World) : M () :=
  '(fl, kubectlArgs, ctxs, filters) ← main_setup world;
  main_run world fl kubectlArgs (matchContexts (regexpMatch world) ctxs filters).

(** What the target listing of the gate writes: one line per target. *)
Definition listing (world : World) (ctxMatches : list bytes) : list event :=
  (λ c, Stderr (gray world (str "  - " ++ c ++ [nl]))) <$> ctxMatches.

(** A piece of [main] is silent when it produces no event unless it ends
    the process. *)
Definition silent {A} (m : M A) : Prop := ∀ tr a, m = (tr, Some a) → tr = [].

(** ** Sample runs *)

(** A stand-in for the [flag] package that knows [-q] only: it reads [-q]
    flags up to the first other argument, a [--] ending the flags. *)
Fixpoint sampleParse (f : flags) (args : list bytes) : parseResult :=
  match args with
  | [] => ParseOk f []
  | a :: rest =>
      if decide (a = str "-q")
      then sampleParse {| repl := repl f; workers := workers f; quiet := true |} rest
      else if decide (a = str "--") then ParseOk f rest
      else ParseOk f args
  end.

(** A stand-in for [separateArgs]: cut at the first [--]. *)
Fixpoint sampleSeparate (args : list bytes) : list bytes * list bytes * option bytes :=
  match args with
  | [] => ([], [], Some (str "missing --"))
  | a :: rest =>
      if decide (a = str "--") then ([], rest, None)
      else match sampleSeparate rest with
           | (own, wrapped, err) => (a :: own, wrapped, err)
           end
  end.

(** A run with the command line [args], the environment variable
    [ALLCTX_DISABLE_PROMPTS] set to [noPrompts], a kubeconfig with the
    contexts [dev] and [prod], colours off, a user who confirms, and tasks
    that all succeed. *)
Definition sampleWorld (args : list bytes) (noPrompts : bytes) : World := {|
  osArgs := args;
  Getenv := λ name, if decide (name = envDisablePrompts) then noPrompts else [];
  flagParse := sampleParse;
  separateArgs := sampleSeparate;
  getContexts := CmdOk (str "dev" ++ [nl] ++ str "prod" ++ [nl]);
  parseFilter := λ arg, inl {| kind := Exact; negate := false; pattern := arg |};
  regexpMatch := λ _ _, false;
  promptResult := None;
  Wait := λ _, None;
  gray := λ s, s;
  red := λ s, s;
  Sprintf := λ _ s, s
|}.

(** ** Vocabulary for further properties *)

(** [strings.Join(elems, sep)]: the elements with [sep] between them. *)
Fixpoint Join (elems : list bytes) (sep : bytes) : bytes :=
  match elems with
  | [] => []
  | [x] => x
  | x :: rest => x ++ sep ++ Join rest sep
  end.

(** The scan fails, or it yields a line that fails the test of line 273:
    the goroutine goes on to send the refusal. *)
Definition refusing (input : option bytes) : Prop :=
  input = None ∨ ∃ v, input = Some v ∧ accepted v = false.

(** The input is a line that passes the test of line 273. *)
Definition approving (input : option bytes) : Prop :=
  ∃ v, input = Some v ∧ accepted v = true.

(** What holds in every state of every run of [prompt], whatever the input
    and whether or not the context is cancelled. *)
Definition prompt_inv_any (input : option bytes) (s : promptState) : Prop :=
  match returned s with
  | None =>
      scanner s = InScan ∨
      (scanner s = AtSendNil ∧ approving input) ∨
      (scanner s = AtSendErr ∧ refusing input)
  | Some None => scanner s = AtSendErr ∧ approving input
  | Some (Some err) =>
      (err = errRefused ∧ scanner s = ScannerExited ∧ refusing input) ∨
      (err = errCanceled ∧ ctxDone s = true ∧ scanner s ≠ ScannerExited)
  end.

(** An event that no run of [main] produces: a panic, or a dispatch of no
    task or with a limit below one (with the limit 0 an errgroup starts
    nothing). *)
Definition sound (e : event) : Prop :=
  match e with
  | Panic => False
  | Dispatch p => 1 ≤ limit p ∧ tasks p ≠ []
  | _ => True
  end.

(** The sample world with another command-line parser, another answer of the
    user and another outcome of the provider. *)
Definition sampleWorldWith (parse : flags → list bytes → parseResult)
    (answer : option bytes) (provider : cmdResult) (args : list bytes) : World := {|
  osArgs := args;
  Getenv := Getenv (sampleWorld args []);
  flagParse := parse;
  separateArgs := sampleSeparate;
  getContexts := provider;
  parseFilter := parseFilter (sampleWorld args []);
  regexpMatch := regexpMatch (sampleWorld args []);
  promptResult := answer;
  Wait := Wait (sampleWorld args []);
  gray := gray (sampleWorld args []);
  red := red (sampleWorld args []);
  Sprintf := Sprintf (sampleWorld args [])
|}.

(** ** [fmt.Sprintf] on a format without operands

    The palette entries are [Sprintf] functions, and [runAll] calls them with
    the target name as the format and no operand (line 235, [colFn(kctx)]). *)

Definition isLetter (c : ascii) : bool :=
  let n := nat_of_ascii c in
  ((65 <=? n)%nat && (n <=? 90)%nat) || ((97 <=? n)%nat && (n <=? 122)%nat).

(** [fmt.Sprintf(format)] for the formats in which every [%] is directly
    followed by [%] or by an ASCII letter, or is the last byte.  Text is
    copied; [%%] prints [%]; a verb finds no operand and prints
    [%!verb(MISSING)]; a [%] at the end prints [%!(NOVERB)].  [None]: the
    format has a [%] followed by something else (a flag, a width, a precision,
    an argument index, another verb character), which is not modelled. *)
Fixpoint fmt_Sprintf (format : bytes) : option bytes :=
  match format with
  | [] => Some []
  | c :: rest =>
      if decide (c = "%"%char) then
        match rest with
        | [] => Some (str "%!(NOVERB)")
        | verb :: rest' =>
            if decide (verb = "%"%char) then
              (λ out, "%"%char :: out) <$> fmt_Sprintf rest'
            else if isLetter verb then
              (λ out, str "%!" ++ [verb] ++ str "(MISSING)" ++ out)
                <$> fmt_Sprintf rest'
            else None
        end
      else (λ out, c :: out) <$> fmt_Sprintf rest
  end.

(** Colours are off: every palette entry returns what [fmt.Sprintf] makes of
    its format, with no escape sequence around it. *)
Definition coloursOff (world : World) : Prop :=
  ∀ colFn format out,
    fmt_Sprintf format = Some out → Sprintf world colFn format = out.

(** The sample world with colours off.  A format outside the model of
    [fmt_Sprintf] is left as it is; no sample run has one. *)
Definition plainWorld : World := {|
  osArgs := [];
  Getenv := Getenv (sampleWorld [] []);
  flagParse := sampleParse;
  separateArgs := sampleSeparate;
  getContexts := getContexts (sampleWorld [] []);
  parseFilter := parseFilter (sampleWorld [] []);
  regexpMatch := regexpMatch (sampleWorld [] []);
  promptResult := None;
  Wait := Wait (sampleWorld [] []);
  gray := gray (sampleWorld [] []);
  red := red (sampleWorld [] []);
  Sprintf := λ _ format, default format (fmt_Sprintf format)
|}.

(** * Proofs *)

(** ** The model on sample inputs *)

Example Replace_braces :
  strings.Replace (str "logs -n {} --context={}") (str "{}") (str "prod")
  = str "logs -n prod --context=prod".
Proof. reflexivity. Qed.

Example Replace_overlapping :
  strings.Replace (str "aaa") (str "aa") (str "b") = str "ba".
Proof. reflexivity. Qed.

Example Split_lines :
  strings.Split (str "dev" ++ [nl] ++ str "prod") [nl] = [str "dev"; str "prod"].
Proof. reflexivity. Qed.

Example TrimSpace_mixed :
  strings.TrimSpace ([nl] ++ str "  dev " ++ ["194"; "160"; "009"]%char) = str "dev".
Proof. reflexivity. Qed.

Example kubeContexts_two :
  kubeContexts (CmdOk (str "dev" ++ [nl] ++ str "prod" ++ [nl]))
  = inl [str "dev"; str "prod"].
Proof. reflexivity. Qed.

Example trimSuffix_cuts :
  trimSuffix [str "-q"; str "dev"; str "--"; str "get"; str "pods"]
             [str "--"; str "get"; str "pods"]
  = Some [str "-q"; str "dev"].
Proof. reflexivity. Qed.

Example matchContexts_include_then_exclude :
  matchContexts (λ _ _, false) [str "a"; str "b"; str "c"]
    [ {| kind := Exact; negate := false; pattern := str "b" |};
      {| kind := Exact; negate := true; pattern := str "b" |} ] = [].
Proof. by vm_compute. Qed.

Example matchContexts_exclude_only :
  matchContexts (λ _ _, false) [str "a"; str "b"; str "c"]
    [ {| kind := Exact; negate := true; pattern := str "a" |} ]
  = [str "b"; str "c"].
Proof. by vm_compute. Qed.

Example main_quiet_run :
  (main (sampleWorld [str "-q"; str "prod"; str "--"; str "get"] [])).1
  = [ Stderr (str "  - prod" ++ [nl]);
      Dispatch {| limit := 1;
                  tasks := [ {| argv := [str "--context=prod"; str "get"];
                                wo := {| prefix := str "prod | "; w := SyncStdout |};
                                we := {| prefix := str "prod | "; w := SyncStderr |} |} ] |} ].
Proof. by vm_compute. Qed.

(** ** The [strings] functions *)

Section strings_facts.
Import strings.

Lemma HasPrefix_spec (s p : bytes) : HasPrefix s p = true ↔ p `prefix_of` s.
Proof.
  revert s. induction p as [|c p IH]; intros s; simpl.
  - split; [intros _; apply prefix_nil | done].
  - destruct s as [|d s].
    + split; [done | intros H%prefix_nil_inv; done].
    + rewrite andb_true_iff, bool_decide_eq_true, IH. split.
      * intros [-> Hp]. by apply prefix_cons.
      * intros Hp. split; [by apply prefix_cons_inv_1 in Hp |
                           by apply prefix_cons_inv_2 in Hp].
Qed.

Lemma HasPrefix_false (s p : bytes) : HasPrefix s p = false ↔ ¬ p `prefix_of` s.
Proof. rewrite <- HasPrefix_spec. by destruct (HasPrefix s p). Qed.

(** [Index] finds an occurrence, and it is the leftmost one. *)
Lemma Index_Some (s sub : bytes) (i : nat) :
  Index s sub = Some i →
  s = take i s ++ sub ++ drop (i + length sub) s ∧
  ∀ p q, s = p ++ sub ++ q → (i ≤ length p)%nat.
Proof.
  revert i. induction s as [|c s IH]; intros i; cbn [Index].
  - destruct (HasPrefix [] sub) eqn:Hp; [|done].
    intros [= <-]. apply HasPrefix_spec, prefix_nil_inv in Hp as ->.
    split; [done | intros; lia].
  - destruct (HasPrefix (c :: s) sub) eqn:Hp.
    + intros [= <-]. apply HasPrefix_spec in Hp as [k Hk].
      split; [|intros; lia].
      rewrite Hk at 1. simpl take. rewrite Hk.
      by rewrite Nat.add_0_l, drop_app_length.
    + destruct (Index s sub) as [j|] eqn:Hj; [|done].
      intros [= <-]. destruct (IH j eq_refl) as [Hdec Hmin]. split.
      * simpl. by rewrite <- Hdec.
      * intros [|d p] q Hpq.
        -- apply HasPrefix_false in Hp. destruct Hp. by exists q.
        -- simpl in Hpq. injection Hpq as -> Hs.
           specialize (Hmin _ _ Hs). simpl. lia.
Qed.

Lemma Index_None (s sub : bytes) : Index s sub = None → ¬ occurs sub s.
Proof.
  induction s as [|c s IH]; cbn [Index].
  - destruct (HasPrefix [] sub) eqn:Hp; [done|]. intros _ (p & q & Hpq).
    apply HasPrefix_false in Hp. apply Hp.
    symmetry in Hpq. apply app_eq_nil in Hpq as [-> Hq].
    apply app_eq_nil in Hq as [-> _]. done.
  - destruct (HasPrefix (c :: s) sub) eqn:Hp; [done|].
    destruct (Index s sub) eqn:Hj; [done|]. intros _ (p & q & Hpq).
    destruct p as [|d p].
    + apply HasPrefix_false in Hp. apply Hp. by exists q.
    + simpl in Hpq. injection Hpq as -> Hs. apply IH; [done|]. by exists p, q.
Qed.

Lemma Index_occurs (s sub : bytes) : occurs sub s → is_Some (Index s sub).
Proof.
  intros Hocc. destruct (Index s sub) eqn:H; [by eexists|].
  by apply Index_None in H.
Qed.

Lemma Index_nil (sub : bytes) : sub ≠ [] → Index [] sub = None.
Proof. by destruct sub. Qed.

Lemma Index_le (s sub : bytes) (i : nat) :
  Index s sub = Some i → (i ≤ length s)%nat.
Proof.
  revert i. induction s as [|c s IH]; intros i; cbn [Index].
  - destruct (HasPrefix [] sub); [|done]. intros [= <-]. simpl. lia.
  - destruct (HasPrefix (c :: s) sub); [intros [= <-]; lia|].
    destruct (Index s sub) as [j|]; [|done].
    intros [= <-]. specialize (IH j eq_refl). simpl. lia.
Qed.

Lemma Index_bound (s sub : bytes) (i : nat) :
  Index s sub = Some i → (i + length sub ≤ length s)%nat.
Proof.
  intros Hi. pose proof (Index_le _ _ _ Hi).
  apply Index_Some in Hi as [Hdec _]. apply (f_equal length) in Hdec.
  rewrite !length_app, length_take, length_drop in Hdec. lia.
Qed.

(** [length s] rounds are enough for [Count]: more fuel changes nothing. *)
Lemma Count_loop_fuel (fuel : nat) (s sub : bytes) :
  sub ≠ [] → (length s ≤ fuel)%nat → Count_loop fuel s sub = Count s sub.
Proof.
  intros Hne. unfold Count.
  assert (Hgen : ∀ f1 f2 t, (length t ≤ f1)%nat → (length t ≤ f2)%nat →
                   Count_loop f1 t sub = Count_loop f2 t sub).
  { assert (Hpos : (0 < length sub)%nat) by (destruct sub; [done|simpl; lia]).
    induction f1 as [|f1 IH]; intros f2 t H1 H2.
    - destruct t; [|simpl in H1; lia].
      destruct f2 as [|f2]; [done|]. cbn [Count_loop].
      by rewrite Index_nil.
    - destruct f2 as [|f2].
      + destruct t; [|simpl in H2; lia]. cbn [Count_loop].
        by rewrite Index_nil.
      + cbn [Count_loop]. destruct (Index t sub) as [i|] eqn:Hi; [|done].
        f_equal. apply IH; rewrite length_drop; lia. }
  intros Hlen. by apply Hgen.
Qed.

Lemma Count_no_occurrence (s sub : bytes) : ¬ occurs sub s → Count s sub = O.
Proof.
  intros Hno. unfold Count. destruct (length s); [done|]. cbn [Count_loop].
  destruct (Index s sub) as [i|] eqn:Hi; [|done].
  destruct Hno. apply Index_Some in Hi as [Hi _]. by eexists _, _.
Qed.

(** The replacement loop, run [Count] times, replaces every occurrence. *)
Lemma Replace_loop_spec (fuel : nat) (s old new : bytes) :
  old ≠ [] → (length s ≤ fuel)%nat →
  ReplacedAll old new s (Replace_loop (Count_loop fuel s old) s old new).
Proof.
  intros Hne. revert s. induction fuel as [|fuel IH]; intros s Hlen.
  - simpl. constructor. intros (p & q & ->).
    rewrite !length_app in Hlen. destruct old; [done|]. simpl in Hlen. lia.
  - cbn [Count_loop]. destruct (Index s old) as [j|] eqn:Hj.
    + cbn [Replace_loop]. rewrite Hj.
      destruct (Index_Some _ _ _ Hj) as [Hdec Hmin].
      rewrite Hdec at 1.
      pose proof (Index_bound _ _ _ Hj) as Hj'.
      apply ReplacedAll_next.
      * intros p q Hpq. rewrite <- Hdec in Hpq.
        specialize (Hmin _ _ Hpq). rewrite length_take. lia.
      * apply IH. rewrite length_drop. destruct old; [done|]. simpl. lia.
    + cbn [Replace_loop]. constructor. by apply Index_None.
Qed.

(** Replacing [old] by itself changes nothing, so the shortcut
    [old == new] of [strings.Replace] agrees with the loop. *)
Lemma Replace_loop_same (n : nat) (s old : bytes) :
  Replace_loop n s old old = s.
Proof.
  revert s. induction n as [|n IH]; intros s; cbn [Replace_loop]; [done|].
  destruct (Index s old) as [j|] eqn:Hj; [|done].
  rewrite IH. by destruct (Index_Some _ _ _ Hj) as [<- _].
Qed.

Lemma Replace_as_loop (s old new : bytes) :
  Replace s old new = Replace_loop (Count s old) s old new.
Proof.
  unfold Replace. destruct (decide (old = new)) as [->|_].
  - by rewrite Replace_loop_same.
  - by destruct (Count s old).
Qed.

Lemma Replace_spec (s old new : bytes) :
  old ≠ [] → ReplacedAll old new s (Replace s old new).
Proof.
  intros Hne. rewrite Replace_as_loop. unfold Count.
  by apply Replace_loop_spec.
Qed.

Lemma Replace_no_occurrence (s old new : bytes) :
  ¬ occurs old s → Replace s old new = s.
Proof.
  intros Hno. rewrite Replace_as_loop.
  by rewrite Count_no_occurrence.
Qed.

(** [ReplacedAll] determines its output: the spelled-out meaning of "every
    occurrence replaced" leaves no choice. *)
Lemma ReplacedAll_functional (old new s o1 o2 : bytes) :
  old ≠ [] →
  ReplacedAll old new s o1 → ReplacedAll old new s o2 → o1 = o2.
Proof.
  intros Hne H1. revert o2.
  induction H1 as [s Hno|pre rest out Hmin _ IH]; intros o2 H2.
  - inversion H2 as [|pre' rest' out' Hmin' Hrest' Hs]; subst; [done|].
    destruct Hno. by eexists _, _.
  - inversion H2 as [s' Hno Hs|pre' rest' out' Hmin' Hrest' Hs]; subst.
    + destruct Hno. by eexists _, _.
    + assert (Hlen : length pre = length pre').
      { pose proof (Hmin _ _ (eq_sym Hs)).
        pose proof (Hmin' _ _ Hs). lia. }
      apply app_inj_1 in Hs as [-> Hs]; [|done].
      apply app_inv_head in Hs as ->.
      f_equal. f_equal. by apply IH.
Qed.

Lemma Split_nonempty (s sep : bytes) : (1 ≤ length (Split s sep))%nat.
Proof.
  unfold Split. destruct (Count s sep); cbn [Split_loop]; [simpl; lia|].
  destruct (Index s sep); simpl; lia.
Qed.

Lemma Split_empty (sep : bytes) : sep ≠ [] → Split [] sep = [[]].
Proof. intros Hne. unfold Split. by rewrite Count_no_occurrence; [|
  intros (p & q & Hpq); symmetry in Hpq;
  apply app_eq_nil in Hpq as [_ Hq]; apply app_eq_nil in Hq as [-> _]]. Qed.

End strings_facts.

(** ** White space and [strings.TrimSpace] *)

Section trim_facts.
Import strings.

(** No encoding in the table is a proper prefix of another one. *)
Lemma spaceRunes_prefix_free (r r' : bytes) :
  r ∈ spaceRunes → r' ∈ spaceRunes → r' `prefix_of` r → r' = r.
Proof.
  assert (Hall : Forall (λ r, Forall (λ r', r' `prefix_of` r → r' = r)
                                spaceRunes) spaceRunes).
  { apply (bool_decide_unpack _). by vm_compute. }
  rewrite Forall_forall in Hall. intros Hr Hr'.
  specialize (Hall r Hr). rewrite Forall_forall in Hall. by apply Hall.
Qed.

Lemma spaceRunes_nonempty (r : bytes) : r ∈ spaceRunes → (1 ≤ length r)%nat.
Proof.
  assert (Hall : Forall (λ r : bytes, (1 ≤ length r)%nat) spaceRunes).
  { apply (bool_decide_unpack _). by vm_compute. }
  rewrite Forall_forall in Hall. apply Hall.
Qed.

Lemma leadingSpace_Some (s : bytes) (k : nat) :
  leadingSpace s = Some k →
  ∃ r, r ∈ spaceRunes ∧ r `prefix_of` s ∧ k = length r.
Proof.
  unfold leadingSpace. intros Hk.
  apply fmap_Some in Hk as ([i r] & Hfind & ->).
  apply list_find_Some in Hfind as (Hi & Hp & _).
  exists r. split; [by eapply list_elem_of_lookup_2|].
  split; [|done]. apply HasPrefix_spec. by apply Is_true_eq_true.
Qed.

Lemma leadingSpace_rune (r s : bytes) :
  r ∈ spaceRunes → leadingSpace (r ++ s) = Some (length r).
Proof.
  intros Hr.
  destruct (list_find_elem_of (HasPrefix (r ++ s)) spaceRunes r Hr)
    as [[i r'] Hfind].
  { apply Is_true_eq_left, HasPrefix_spec. by exists s. }
  unfold leadingSpace. rewrite Hfind. simpl. f_equal.
  apply list_find_Some in Hfind as (Hi & Hp & _).
  apply Is_true_eq_true, HasPrefix_spec in Hp.
  assert (Hin : r' ∈ spaceRunes) by (by eapply list_elem_of_lookup_2).
  destruct (prefix_weak_total r' r (r ++ s) Hp) as [H|H]; [by exists s| |].
  - by rewrite (spaceRunes_prefix_free r r' Hr Hin H).
  - by rewrite (spaceRunes_prefix_free r' r Hin Hr H).
Qed.

(** [length s] rounds are enough for the left trim: what it returns starts
    with no white space. *)
Lemma trimLeft_loop_done (fuel : nat) (s : bytes) :
  (length s ≤ fuel)%nat → leadingSpace (trimLeft_loop fuel s) = None.
Proof.
  revert s. induction fuel as [|fuel IH]; intros s Hlen.
  - by destruct s; [|simpl in Hlen; lia].
  - cbn [trimLeft_loop]. destruct (leadingSpace s) as [k|] eqn:Hk; [|done].
    apply IH. apply leadingSpace_Some in Hk as (r & Hr & _ & ->).
    apply spaceRunes_nonempty in Hr. rewrite length_drop. lia.
Qed.

Lemma trailingSpace_Some (s : bytes) (k : nat) :
  trailingSpace s = Some k →
  ∃ r, r ∈ spaceRunes ∧ r `suffix_of` s ∧ k = length r.
Proof.
  unfold trailingSpace. intros Hk.
  apply fmap_Some in Hk as ([i r] & Hfind & ->).
  apply list_find_Some in Hfind as (Hi & Hp & _).
  exists r. split; [by eapply list_elem_of_lookup_2|].
  split; [|done]. apply suffix_prefix_reverse, HasPrefix_spec.
  by apply Is_true_eq_true.
Qed.

(** [length s] rounds are enough for the right trim as well. *)
Lemma trimRight_loop_done (fuel : nat) (s : bytes) :
  (length s ≤ fuel)%nat → trailingSpace (trimRight_loop fuel s) = None.
Proof.
  revert s. induction fuel as [|fuel IH]; intros s Hlen.
  - by destruct s; [|simpl in Hlen; lia].
  - cbn [trimRight_loop]. destruct (trailingSpace s) as [k|] eqn:Hk; [|done].
    apply IH. apply trailingSpace_Some in Hk as (r & Hr & _ & ->).
    apply spaceRunes_nonempty in Hr. rewrite length_take. lia.
Qed.

Lemma trimLeft_loop_whitespace (fuel : nat) (s : bytes) :
  whitespace s → (length s ≤ fuel)%nat → trimLeft_loop fuel s = [].
Proof.
  intros Hws. revert fuel. induction Hws as [|r s Hr _ IH]; intros fuel Hlen.
  - by destruct fuel.
  - pose proof (spaceRunes_nonempty r Hr). rewrite length_app in Hlen.
    destruct fuel as [|fuel]; [lia|]. cbn [trimLeft_loop].
    rewrite leadingSpace_rune by done. rewrite drop_app_length.
    apply IH. lia.
Qed.

Lemma TrimSpace_whitespace (s : bytes) : whitespace s → TrimSpace s = [].
Proof.
  intros Hws. unfold TrimSpace, TrimLeftSpace.
  by rewrite trimLeft_loop_whitespace.
Qed.

End trim_facts.

(** ** [replaceArgs] *)

(** The index loop of [replaceArgs] computes a plain map over [args]. *)
Lemma replaceArgs_loop (f : bytes → bytes) (args : list bytes) (k : nat) :
  (k ≤ length args)%nat →
  foldl (λ out i, <[i := f (args !!! i)]> out)
        (replicate (length args) []) (seq 0 k)
  = (f <$> take k args) ++ replicate (length args - k) [].
Proof.
  induction k as [|k IH]; intros Hk.
  - simpl. by rewrite Nat.sub_0_r.
  - rewrite seq_S, foldl_app. simpl. rewrite IH by lia.
    destruct (lookup_lt_is_Some_2 args k) as [x Hx]; [lia|].
    rewrite (list_lookup_total_correct _ _ _ Hx).
    rewrite (take_S_r _ _ _ Hx), fmap_app. simpl.
    rewrite insert_app_r_alt by (rewrite length_fmap, length_take; lia).
    rewrite length_fmap, length_take.
    replace (k - k `min` length args)%nat with 0%nat by lia.
    replace (length args - k)%nat with (S (length args - S k)) by lia.
    simpl. by rewrite <- app_assoc.
Qed.

Lemma replaceArgs_map (args : list bytes) (repl ctx : bytes) :
  repl ≠ [] →
  replaceArgs args repl ctx = (λ a, strings.Replace a repl ctx) <$> args.
Proof.
  intros Hne. unfold replaceArgs. rewrite decide_False by done.
  rewrite (replaceArgs_loop (λ a, strings.Replace a repl ctx)) by lia.
  by rewrite Nat.sub_diag, firstn_all, app_nil_r.
Qed.

(** C3. With a non-empty [-I] value every built argument is the wrapped
    argument with every occurrence of that value replaced by the target name
    (argument by argument, nothing added or dropped); with an empty value the
    built vector is ["--context=" ++ target] followed by the wrapped
    arguments.  This holds for every wrapped-argument list, the non-empty
    ones included. *)
Theorem replaceArgs_spec (args : list bytes) (repl ctx : bytes) :
  (repl ≠ [] → Forall2 (ReplacedAll repl ctx) args (replaceArgs args repl ctx)) ∧
  (repl = [] → replaceArgs args repl ctx = (str "--context=" ++ ctx) :: args).
Proof.
  split.
  - intros Hne. rewrite replaceArgs_map by done.
    apply Forall2_fmap_r, Forall_Forall2_diag, Forall_forall.
    intros a _. by apply Replace_spec.
  - intros ->. reflexivity.
Qed.

Lemma replaceArgs_spec_witness :
  Forall2 (ReplacedAll (str "{}") (str "prod"))
          [str "get"; str "-n={}"; str "{}/{}"]
          (replaceArgs [str "get"; str "-n={}"; str "{}/{}"] (str "{}") (str "prod"))
  ∧ replaceArgs [str "get"; str "pods"] [] (str "prod")
    = [str "--context=prod"; str "get"; str "pods"].
Proof.
  split.
  - apply (proj1 (replaceArgs_spec _ _ _)). vm_compute. discriminate.
  - apply (proj2 (replaceArgs_spec _ _ _)). reflexivity.
Defined.

(** C10. A non-empty [-I] value that occurs in none of the wrapped arguments
    leaves them as they are: the built vector is the wrapped arguments, with
    no context selector, so it is the same for any two targets. *)
Theorem replaceArgs_no_occurrence (args : list bytes) (repl : bytes) :
  repl ≠ [] →
  Forall (λ a, ¬ occurs repl a) args →
  (∀ ctx, replaceArgs args repl ctx = args) ∧
  (∀ ctx1 ctx2, replaceArgs args repl ctx1 = replaceArgs args repl ctx2).
Proof.
  intros Hne Hno.
  assert (Hsame : ∀ ctx, replaceArgs args repl ctx = args).
  { intros ctx. rewrite replaceArgs_map by done.
    induction Hno as [|a args Ha _ IH]; [done|].
    rewrite fmap_cons, IH. f_equal. by apply Replace_no_occurrence. }
  split; [done|]. intros ctx1 ctx2. by rewrite !Hsame.
Qed.

Lemma not_occurs_Index (sub s : bytes) :
  strings.Index s sub = None → ¬ occurs sub s.
Proof. apply Index_None. Qed.

Lemma replaceArgs_no_occurrence_witness :
  replaceArgs [str "get"; str "pods"] (str "{}") (str "prod")
  = replaceArgs [str "get"; str "pods"] (str "{}") (str "staging").
Proof.
  apply (proj2 (replaceArgs_no_occurrence [str "get"; str "pods"] (str "{}")
                  ltac:(vm_compute; discriminate)
                  ltac:(repeat constructor; apply not_occurs_Index; reflexivity))).
Defined.

(** ** [kubeContexts] *)

(** C8. When the provider's captured output is empty or white space only,
    [kubeContexts] returns the one-element list holding the empty string; and
    whatever the output of a successful provider call, the list returned has
    at least one element. *)
Theorem kubeContexts_never_empty (out : bytes) :
  (whitespace out → kubeContexts (CmdOk out) = inl [[]]) ∧
  (∃ l, kubeContexts (CmdOk out) = inl l ∧ (1 ≤ length l)%nat).
Proof.
  split.
  - intros Hws. simpl. rewrite TrimSpace_whitespace by done.
    by rewrite Split_empty.
  - eexists. split; [reflexivity|]. apply Split_nonempty.
Qed.

Lemma kubeContexts_never_empty_witness :
  kubeContexts (CmdOk (str " " ++ [nl] ++ str "  ")) = inl [[]].
Proof.
  apply (proj1 (kubeContexts_never_empty _)).
  apply (whitespace_rune [" "%char]); [by apply (bool_decide_unpack _)|].
  apply (whitespace_rune [nl]); [by apply (bool_decide_unpack _)|].
  apply (whitespace_rune [" "%char]); [by apply (bool_decide_unpack _)|].
  apply (whitespace_rune [" "%char]); [by apply (bool_decide_unpack _)|].
  constructor.
Defined.

(** ** [maxLen] and [runAll] *)

Lemma maxLen_foldl (acc : Z) (s : list bytes) :
  0 ≤ acc →
  foldl (λ max v, if len v >? max then len v else max) acc s
  = Z.max acc (Z.of_nat (max_list (length <$> s))).
Proof.
  revert acc. induction s as [|v s IH]; intros acc Hacc; [simpl; lia|].
  rewrite fmap_cons. cbn [foldl max_list].
  destruct (Z.gtb_spec (len v) acc); rewrite IH; unfold len, id in *; lia.
Qed.

(** [maxLen] is the length of the longest string. *)
Lemma maxLen_max_list (s : list bytes) :
  maxLen s = Z.of_nat (max_list (length <$> s)).
Proof. unfold maxLen. rewrite maxLen_foldl; lia. Qed.

Lemma maxLen_ge (s : list bytes) (v : bytes) : v ∈ s → len v ≤ maxLen s.
Proof.
  intros Hv. rewrite maxLen_max_list. unfold len.
  apply inj_le, max_list_elem_of_le, list_elem_of_fmap. by exists v.
Qed.

Lemma Repeat_space (count : Z) :
  0 ≤ count →
  strings.Repeat (str " ") count = Some (replicate (Z.to_nat count) " "%char).
Proof.
  intros Hc. unfold strings.Repeat.
  destruct (Z.ltb_spec count 0); [lia|]. f_equal.
  induction (Z.to_nat count) as [|n IH]; [done|].
  cbn [replicate concat]. rewrite IH. reflexivity.
Qed.

Lemma colors_length : length colors = 32%nat.
Proof. reflexivity. Qed.

(** Every round of the dispatch loop succeeds in building its task. *)
Lemma runAll_task_Some (world : World) (kubeCtxs : list bytes)
    (argMaker : bytes → list bytes) (stdout stderr : sink) (i : nat) (kctx : bytes) :
  kctx ∈ kubeCtxs →
  ∃ colFn, colors !! (i mod 32)%nat = Some colFn ∧
    runAll_task world (maxLen kubeCtxs) argMaker stdout stderr i kctx =
    let prefix := replicate (Z.to_nat (maxLen kubeCtxs - len kctx)) " "%char
                  ++ Sprintf world colFn kctx ++ str " | " in
    Some {| argv := argMaker kctx;
            wo := {| prefix := prefix; w := stdout |};
            we := {| prefix := prefix; w := stderr |} |}.
Proof.
  intros Hin. unfold runAll_task. rewrite colors_length.
  destruct (lookup_lt_is_Some_2 colors (i mod 32)) as [colFn Hc].
  { rewrite colors_length. apply Nat.mod_upper_bound. lia. }
  exists colFn. split; [done|]. rewrite Hc. simpl.
  unfold leftPad. rewrite Repeat_space by (apply maxLen_ge in Hin; lia).
  simpl. by rewrite <- app_assoc.
Qed.

Lemma runAll_Some (world : World) (workers : Z) (kubeCtxs : list bytes)
    (argMaker : bytes → list bytes) (stdout stderr : sink) :
  ∃ ts, runAll world workers kubeCtxs argMaker stdout stderr
        = Some {| limit := if workers >? 0 then workers else len kubeCtxs;
                  tasks := ts |}
    ∧ Forall2 (λ o t, o = Some t)
        (imap (runAll_task world (maxLen kubeCtxs) argMaker stdout stderr) kubeCtxs) ts.
Proof.
  unfold runAll.
  destruct (mapM id (imap (runAll_task world (maxLen kubeCtxs) argMaker stdout stderr)
                       kubeCtxs)) as [ts|] eqn:Hts.
  - exists ts. split; [done|]. by apply mapM_Some in Hts.
  - exfalso. apply mapM_None in Hts. apply Exists_exists in Hts as (o & Ho & Hnone).
    apply list_elem_of_lookup in Ho as [i Ho]. rewrite list_lookup_imap in Ho.
    destruct (kubeCtxs !! i) as [kctx|] eqn:Hk; [|done]. simpl in Ho.
    destruct (runAll_task_Some world kubeCtxs argMaker stdout stderr i kctx)
      as (colFn & _ & Heq); [by eapply list_elem_of_lookup_2|].
    rewrite Heq in Ho. simpl in Ho. injection Ho as <-. done.
Qed.

(** C4. The bound handed to the pool is the [-c] value when that is greater
    than zero, and the number of matched targets when it is zero (the flag's
    default, so also when the flag is not given). *)
Theorem runAll_limit (world : World) (c : Z) (kubeCtxs : list bytes)
    (argMaker : bytes → list bytes) (stdout stderr : sink) :
  ∃ p, runAll world c kubeCtxs argMaker stdout stderr = Some p ∧
       (0 < c → limit p = c) ∧
       (c = 0 → limit p = len kubeCtxs ∧ length (tasks p) = length kubeCtxs) ∧
       workers flagDefaults = 0.
Proof.
  destruct (runAll_Some world c kubeCtxs argMaker stdout stderr)
    as (ts & Hrun & Hts).
  eexists. split; [exact Hrun|]. simpl.
  apply Forall2_length in Hts. rewrite length_imap in Hts.
  split; [|split; [|reflexivity]].
  - intros Hpos. destruct (Z.gtb_spec c 0); [done|lia].
  - intros ->. split; [reflexivity|done].
Qed.

Lemma runAll_limit_witness :
  ∃ p, runAll (sampleWorld [] []) 2 [str "dev"; str "prod"; str "test"]
              (replaceArgs [str "get"] []) SyncStdout SyncStderr = Some p
       ∧ limit p = 2.
Proof.
  destruct (runAll_limit (sampleWorld [] []) 2 [str "dev"; str "prod"; str "test"]
              (replaceArgs [str "get"] []) SyncStdout SyncStderr)
    as (p & Hp & Hpos & _).
  exists p. split; [exact Hp|]. apply Hpos. lia.
Defined.

(** How [runAll] builds a label: the padding, then what the [i]-th palette
    entry (cyclically) makes of the target's name, which it receives as its
    format, then [" | "]; both writers of the target carry it.  The padding is
    made of spaces and is as long as the name is shorter than the longest name
    of the Match Set.  That width is [maxLen] of the whole Match Set: one
    value, fixed before the first writer is built and stored, as part of the
    label, in the writers. *)
Theorem runAll_labels (world : World) (workers : Z) (kubeCtxs : list bytes)
    (argMaker : bytes → list bytes) (stdout stderr : sink) :
  ∃ p, runAll world workers kubeCtxs argMaker stdout stderr = Some p ∧
    length (tasks p) = length kubeCtxs ∧
    maxLen kubeCtxs = Z.of_nat (max_list (length <$> kubeCtxs)) ∧
    ∀ i kctx, kubeCtxs !! i = Some kctx →
      ∃ t colFn pad,
        tasks p !! i = Some t ∧
        colors !! (i mod length colors)%nat = Some colFn ∧
        pad = replicate (Z.to_nat (maxLen kubeCtxs - len kctx)) " "%char ∧
        Z.of_nat (length pad + length kctx) = maxLen kubeCtxs ∧
        prefix (wo t) = pad ++ Sprintf world colFn kctx ++ str " | " ∧
        prefix (we t) = prefix (wo t) ∧
        w (wo t) = stdout ∧ w (we t) = stderr.
Proof.
  destruct (runAll_Some world workers kubeCtxs argMaker stdout stderr)
    as (ts & Hrun & Hts).
  eexists. split; [exact Hrun|]. simpl.
  split; [by apply Forall2_length in Hts; rewrite length_imap in Hts|].
  split; [apply maxLen_max_list|].
  intros i kctx Hk.
  assert (Hin : kctx ∈ kubeCtxs) by (by eapply list_elem_of_lookup_2).
  destruct (runAll_task_Some world kubeCtxs argMaker stdout stderr i kctx Hin)
    as (colFn & Hc & Heq).
  assert (Hi : imap (runAll_task world (maxLen kubeCtxs) argMaker stdout stderr)
                 kubeCtxs !! i
               = Some (runAll_task world (maxLen kubeCtxs) argMaker stdout stderr i kctx))
    by (by rewrite list_lookup_imap, Hk).
  destruct (Forall2_lookup_l _ _ _ _ _ Hts Hi) as (t & Ht & Ht').
  rewrite Heq in Ht'. simpl in Ht'. injection Ht' as <-.
  eexists _, colFn, _. split; [exact Ht|].
  split; [exact Hc|]. split; [reflexivity|].
  split; [|done].
  rewrite length_replicate. apply maxLen_ge in Hin. unfold len in *. lia.
Qed.

Lemma runAll_labels_witness :
  ∃ p t, runAll (sampleWorld [] []) 0 [str "dev"; str "prod"]
                (replaceArgs [str "get"] []) SyncStdout SyncStderr = Some p
         ∧ tasks p !! 0%nat = Some t
         ∧ prefix (wo t) = str " dev | ".
Proof.
  destruct (runAll_labels (sampleWorld [] []) 0 [str "dev"; str "prod"]
              (replaceArgs [str "get"] []) SyncStdout SyncStderr)
    as (p & Hp & _ & _ & Hlabel).
  destruct (Hlabel 0%nat (str "dev") eq_refl)
    as (t & colFn & pad & Ht & _ & -> & _ & Hprefix & _).
  exists p, t. split; [exact Hp|]. split; [exact Ht|]. exact Hprefix.
Defined.

(** ** The filter engine *)

Lemma matchContexts_filter (regexMatch : bytes → bytes → bool)
    (raw : list bytes) (filters : list filter) :
  filters = [] ∧ matchContexts regexMatch raw filters = raw ∨
  ∃ selected : gset bytes,
    matchContexts regexMatch raw filters = base.filter (λ name, name ∈ selected) raw.
Proof.
  destruct filters as [|f filters]; [by left|]. right. by eexists.
Qed.

(** C7, as amended.  The Match Set is a subsequence of the raw list, in the
    raw list's order, and holds no name that the raw list lacks; it is free of
    duplicates whenever the raw list is. *)
Theorem matchContexts_subsequence (regexMatch : bytes → bytes → bool)
    (raw : list bytes) (filters : list filter) :
  matchContexts regexMatch raw filters `sublist_of` raw ∧
  (∀ name, name ∈ matchContexts regexMatch raw filters → name ∈ raw) ∧
  (NoDup raw → NoDup (matchContexts regexMatch raw filters)).
Proof.
  destruct (matchContexts_filter regexMatch raw filters) as [[_ ->]|[sel ->]].
  - done.
  - split; [apply sublist_filter|]. split.
    + by intros name [_ ?]%list_elem_of_filter.
    + apply NoDup_filter.
Qed.

Lemma matchContexts_subsequence_witness :
  NoDup (matchContexts (λ _ _, false) [str "dev"; str "prod"; str "test"]
           [ {| kind := Exact; negate := true; pattern := str "prod" |} ]).
Proof.
  apply (proj2 (proj2 (matchContexts_subsequence _ _ _))).
  apply (bool_decide_unpack _). by vm_compute.
Defined.

(** C7 as stated fails: a raw list that holds a name twice gives a Match Set
    that holds it twice, with no filter and with a filter that selects it. *)
Lemma matchContexts_duplicates_counterexample :
  ¬ NoDup (matchContexts (λ _ _, false) [str "dev"; str "dev"] []) ∧
  ¬ NoDup (matchContexts (λ _ _, false) [str "dev"; str "dev"]
             [ {| kind := Exact; negate := false; pattern := str "dev" |} ]).
Proof.
  split.
  - apply (bool_decide_unpack _). by vm_compute.
  - apply (bool_decide_unpack _). by vm_compute.
Qed.

(** *** Properties of [trimSuffix] *)

Lemma index_nat {A} (a : list A) (k : nat) : index a (Z.of_nat k) = a !! k.
Proof.
  unfold index. destruct (Z.ltb_spec (Z.of_nat k) 0); [lia|].
  by rewrite Nat2Z.id.
Qed.

(** When [suffix] is no longer than [a], the loop started [n] elements into
    the aligned tail of [a] compares exactly the first [n] elements of that
    tail with the first [n] elements of [suffix]. *)
Lemma trimSuffix_loop_spec (a suffix : list bytes) (n : nat) :
  (length suffix ≤ length a)%nat →
  (n ≤ length suffix)%nat →
  trimSuffix_loop a suffix (Z.of_nat (length a - length suffix + n) - 1) n
  = Some (bool_decide (take n (drop (length a - length suffix) a) = take n suffix)).
Proof.
  intros Hle. induction n as [|n IH]; intros Hn.
  - reflexivity.
  - cbn [trimSuffix_loop].
    replace (Z.of_nat (length a - length suffix + S n) - 1)
      with (Z.of_nat (length a - length suffix + n)) by lia.
    rewrite index_nat.
    destruct (lookup_lt_is_Some_2 a (length a - length suffix + n)) as [x Hx]; [lia|].
    destruct (lookup_lt_is_Some_2 suffix n) as [y Hy]; [lia|].
    rewrite Hx, Hy.
    assert (Hx' : drop (length a - length suffix) a !! n = Some x)
      by (by rewrite lookup_drop).
    rewrite (take_S_r _ _ _ Hx'), (take_S_r _ _ _ Hy).
    destruct (decide (x ≠ y)) as [Hne|Heq].
    + f_equal. symmetry. apply bool_decide_eq_false_2.
      intros Happ. apply app_inj_2 in Happ as [_ ?]; [|done]. congruence.
    + apply dec_stable in Heq. subst y.
      replace (Z.of_nat (length a - length suffix + n))
        with (Z.of_nat (length a - length suffix + n) - 1 + 1) at 1 by lia.
      replace (Z.of_nat (length a - length suffix + n) - 1 + 1 - 1)
        with (Z.of_nat (length a - length suffix + n) - 1) by lia.
      rewrite IH by lia. f_equal.
      apply bool_decide_ext. split.
      * by intros ->.
      * intros Happ. apply app_inj_2 in Happ as [? _]; done.
Qed.

Lemma trimSuffix_unfold (a suffix : list bytes) :
  trimSuffix a suffix =
  Some (if bool_decide (suffix `suffix_of` a)
        then take (length a - length suffix) a else a).
Proof.
  unfold trimSuffix, len.
  destruct (Z.gtb_spec (Z.of_nat (length suffix)) (Z.of_nat (length a))) as [Hgt|Hle].
  - rewrite bool_decide_eq_false_2; [done|].
    intros Hs%suffix_length. lia.
  - assert (Hle' : (length suffix ≤ length a)%nat) by lia.
    pose proof (trimSuffix_loop_spec a suffix (length suffix) Hle' (le_n _)) as Hloop.
    replace (Z.of_nat (length a - length suffix + length suffix) - 1)
      with (Z.of_nat (length a) - 1) in Hloop by lia.
    rewrite Hloop. clear Hloop.
    rewrite (take_ge suffix) by lia.
    rewrite (take_ge (drop _ a)) by (rewrite length_drop; lia).
    replace (Z.to_nat (Z.of_nat (length a) - Z.of_nat (length suffix)))
      with (length a - length suffix)%nat by lia.
    destruct (decide (drop (length a - length suffix) a = suffix)) as [Heq|Hne].
    + rewrite bool_decide_eq_true_2 by done.
      rewrite bool_decide_eq_true_2; [done|].
      exists (take (length a - length suffix) a).
      by rewrite <- Heq at 2; rewrite take_drop.
    + rewrite bool_decide_eq_false_2 by done.
      rewrite bool_decide_eq_false_2; [done|].
      intros [k ->]. apply Hne.
      rewrite length_app.
      replace (length k + length suffix - length suffix)%nat with (length k) by lia.
      by rewrite drop_app_length.
Qed.

(** C9. [trimSuffix] undoes an append of the suffix, [trimSuffix (a ++ s) s = a],
    and it returns [a] unchanged whenever [s] is not an element-wise suffix of
    [a], which includes every [s] longer than [a]; in neither case does an
    index go out of range. *)
Theorem trimSuffix_roundtrip (a s : list bytes) :
  trimSuffix (a ++ s) s = Some a ∧
  (¬ s `suffix_of` a → trimSuffix a s = Some a) ∧
  ((length a < length s)%nat → trimSuffix a s = Some a).
Proof.
  split; [|split].
  - rewrite trimSuffix_unfold.
    rewrite bool_decide_eq_true_2 by (by exists a).
    rewrite length_app.
    replace (length a + length s - length s)%nat with (length a) by lia.
    by rewrite take_app_length.
  - intros Hns. rewrite trimSuffix_unfold.
    by rewrite bool_decide_eq_false_2.
  - intros Hlt. rewrite trimSuffix_unfold.
    rewrite bool_decide_eq_false_2; [done|].
    intros Hs%suffix_length. lia.
Qed.

Lemma trimSuffix_roundtrip_witness :
  trimSuffix [str "-q"; str "--"; str "get"] [str "--"; str "pods"]
  = Some [str "-q"; str "--"; str "get"].
Proof.
  apply (proj1 (proj2 (trimSuffix_roundtrip _ _))).
  intros [k Hk]. apply (f_equal length) in Hk as Hlen.
  rewrite length_app in Hlen. simpl in Hlen.
  destruct k as [|x [|y k]]; simpl in Hlen; try lia.
  vm_compute in Hk. congruence.
Defined.
(** ** [prompt] *)

Lemma accepted_iff (v : bytes) :
  accepted v = true ↔ v = [] ∨ v = str "y" ∨ v = str "Y".
Proof.
  unfold accepted. rewrite !orb_true_iff, !bool_decide_eq_true. tauto.
Qed.

Lemma prompt_inv_step (v : bytes) (s s' : promptState) :
  prompt_inv v s → prompt_step (Some v) s s' → prompt_inv v s'.
Proof.
  unfold prompt_inv. intros Hinv Hstep.
  inversion Hstep as [v' d r Hv|d r Hv|pc r|d|d|pc]; subst; simpl in *.
  - injection Hv as <-. destruct r as [[err|]|]; [done|done|].
    destruct (accepted v); auto.
  - done.
  - destruct r as [[err|]|]; [|done|done].
    destruct Hinv as [[-> ?]|[_ [=]]]; auto.
  - destruct Hinv as [[=]|[[_ ?]|[[=] _]]]. done.
  - destruct Hinv as [[=]|[[[=] _]|[_ ?]]]. auto.
  - auto.
Qed.

Lemma prompt_inv_reaches (v : bytes) (s : promptState) :
  prompt_reaches (Some v) s → prompt_inv v s.
Proof.
  unfold prompt_reaches. revert s. apply rtc_ind_r.
  - by left.
  - intros s s' _ Hstep IH. by eapply prompt_inv_step.
Qed.

(** A run that delivers the line [v] and returns, with no cancellation. *)
Lemma prompt_run (v : bytes) :
  ∃ s, prompt_reaches (Some v) s ∧ ctxDone s = false ∧
       returned s = Some (if accepted v then None else Some errRefused).
Proof.
  destruct (accepted v) eqn:Hv.
  - exists {| scanner := AtSendErr; ctxDone := false; returned := Some None |}.
    split; [|done]. eapply rtc_l.
    { by apply (step_scan_line _ v). }
    rewrite Hv. eapply rtc_l; [apply step_recv_nil|]. apply rtc_refl.
  - exists {| scanner := ScannerExited; ctxDone := false;
              returned := Some (Some errRefused) |}.
    split; [|done]. eapply rtc_l.
    { by apply (step_scan_line _ v). }
    rewrite Hv. eapply rtc_l; [apply step_recv_err|]. apply rtc_refl.
Qed.

(** C2. Let the prompt read the line [v].  A run that is not cancelled can
    return, and whenever it has returned, the error is [nil] if [v] is empty,
    ["y"] or ["Y"], and the refusal otherwise.  If the context is done while
    the scanner has no line yet, [prompt] is not blocked: it can return, and
    what it returns at that point is the cancellation error. *)
Theorem prompt_spec (v : bytes) :
  (∃ s, prompt_reaches (Some v) s ∧ ctxDone s = false ∧ is_Some (returned s)) ∧
  (∀ s err, prompt_reaches (Some v) s → ctxDone s = false →
     returned s = Some err →
     ((v = [] ∨ v = str "y" ∨ v = str "Y") → err = None) ∧
     (¬ (v = [] ∨ v = str "y" ∨ v = str "Y") → err = Some errRefused)) ∧
  (∀ input s, prompt_reaches input s →
     ctxDone s = true → scanner s = InScan → returned s = None →
     (∃ s', prompt_step input s s' ∧ returned s' = Some (Some errCanceled)) ∧
     (∀ s' err, prompt_step input s s' → returned s' = Some err →
        err = Some errCanceled)).
Proof.
  split; [|split].
  - destruct (prompt_run v) as (s & Hs & Hd & Hr). exists s.
    split; [done|]. split; [done|]. by rewrite Hr.
  - intros s err Hs Hd Hr. apply prompt_inv_reaches in Hs.
    unfold prompt_inv in Hs. rewrite Hr in Hs. rewrite <- accepted_iff.
    destruct err as [err|].
    + destruct Hs as [[-> Hv]|[_ Hc]]; [|congruence].
      split; [congruence|done].
    + split; [done|]. by intros [].
  - intros input [pc d r] _ Hd Hpc Hr. simpl in *. subst. split.
    + eexists. split; [apply step_recv_done|done].
    + intros s' err Hstep Hret.
      inversion Hstep; subst; simpl in *; congruence.
Qed.

Lemma prompt_spec_witness :
  (∀ s err, prompt_reaches (Some (str "y")) s → ctxDone s = false →
     returned s = Some err → err = None) ∧
  (∀ s err, prompt_reaches (Some (str "n")) s → ctxDone s = false →
     returned s = Some err → err = Some errRefused) ∧
  (∃ s', prompt_step (Some (str "n"))
           {| scanner := InScan; ctxDone := true; returned := None |} s'
         ∧ returned s' = Some (Some errCanceled)).
Proof.
  split; [|split].
  - intros s err Hs Hd Hr.
    apply (proj1 (proj2 (prompt_spec (str "y"))) s err Hs Hd Hr). auto.
  - intros s err Hs Hd Hr.
    apply (proj1 (proj2 (prompt_spec (str "n"))) s err Hs Hd Hr).
    intros [H|[H|H]]; discriminate H.
  - apply (proj2 (proj2 (prompt_spec (str "n"))) (Some (str "n"))
             {| scanner := InScan; ctxDone := true; returned := None |});
      [|done..].
    eapply rtc_l; [apply step_cancel|]. apply rtc_refl.
Defined.

(** ** [main] *)

Lemma list_targets_events (world : World) (ctxMatches : list bytes) (m : M ()) :
  m.2 = Some () →
  foldl (λ m c, m ;; emit (Stderr (gray world (str "  - " ++ c ++ [nl]))))
        m ctxMatches
  = (m.1 ++ listing world ctxMatches, Some ()).
Proof.
  revert m. induction ctxMatches as [|c cs IH]; intros [tr r] Hr; simpl in *.
  - subst. by rewrite app_nil_r.
  - subst. rewrite IH by done. simpl. by rewrite <- app_assoc.
Qed.

(** With [-q] and without the environment variable, the gate prints the
    target list and nothing else. *)
Lemma main_confirm_quiet (world : World) (fl : flags) (ctxMatches : list bytes) :
  Getenv world envDisablePrompts = [] → quiet fl = true →
  main_confirm world fl ctxMatches = (listing world ctxMatches, Some ()).
Proof.
  intros Henv Hq. unfold main_confirm. rewrite decide_True by done. rewrite Hq.
  by rewrite list_targets_events.
Qed.

(** C1, as amended.  When the environment variable is set to a non-empty
    value the gate does nothing at all: it writes nothing to the error stream,
    the target list included, and it does not prompt; a run with matched
    targets goes straight from the match to the dispatch. *)
Theorem main_confirm_disabled (world : World) (fl : flags)
    (kubectlArgs ctxMatches : list bytes) :
  Getenv world envDisablePrompts ≠ [] →
  main_confirm world fl ctxMatches = ([], Some ()) ∧
  (ctxMatches ≠ [] →
   main_run world fl kubectlArgs ctxMatches
   = main_dispatch world fl kubectlArgs ctxMatches).
Proof.
  intros Henv.
  assert (Hgate : main_confirm world fl ctxMatches = ([], Some ())).
  { unfold main_confirm. by rewrite decide_False. }
  split; [done|]. intros Hne. unfold main_run. rewrite Hgate.
  destruct (Z.eqb_spec (len ctxMatches) 0) as [Hz|_].
  - destruct ctxMatches; [done|]. unfold len in Hz. simpl in Hz. lia.
  - by destruct (main_dispatch world fl kubectlArgs ctxMatches) as [tr [[]|]].
Qed.

Lemma main_confirm_disabled_witness :
  main_confirm (sampleWorld [] (str "1")) flagDefaults [str "dev"; str "prod"]
  = ([], Some ()).
Proof.
  apply (proj1 (main_confirm_disabled (sampleWorld [] (str "1")) flagDefaults
                  [] [str "dev"; str "prod"] ltac:(vm_compute; discriminate))).
Defined.

(** C1 as stated fails: with the variable set, the run does not print the
    target list that a run with [-q] prints. *)
Lemma main_confirm_disabled_counterexample :
  ¬ (∀ world fl ctxMatches,
       Getenv world envDisablePrompts ≠ [] →
       (main_confirm world fl ctxMatches).1 = listing world ctxMatches).
Proof.
  intros H.
  specialize (H (sampleWorld [] (str "1")) flagDefaults [str "dev"]
                ltac:(vm_compute; discriminate)).
  vm_compute in H. discriminate H.
Qed.

Lemma silent_bind {A B} (m : M A) (k : A → M B) :
  silent m → (∀ a, silent (k a)) → silent (m ≫= k).
Proof.
  intros Hm Hk tr b. destruct m as [tr1 [a|]]; unfold mbind, M_bind; simpl; [|done].
  destruct (k a) as [tr2 r] eqn:Hka. simpl. intros [= <- ->].
  by rewrite (Hm tr1 a eq_refl), (Hk a tr2 b Hka).
Qed.

Lemma silent_mret {A} (a : A) : silent (mret a).
Proof. by intros tr a' [= <- _]. Qed.

Lemma silent_halt {A} (e : event) : silent (halt (A := A) e).
Proof. by intros tr a. Qed.

Lemma silent_printErrAndExit {A} (world : World) (msg : bytes) :
  silent (printErrAndExit (A := A) world msg).
Proof. by intros tr a. Qed.

Lemma silent_parseFailed {A} (world : World) (help : bool) (msg : bytes) :
  silent (parseFailed (A := A) world help msg).
Proof. intros tr a. by destruct help. Qed.

Lemma silent_parseFilters (world : World) (args : list bytes) (filters : list filter) :
  silent (parseFilters world args filters).
Proof.
  revert filters. induction args as [|arg args IH]; intros filters; simpl.
  - apply silent_mret.
  - destruct (parseFilter world arg); [apply IH|apply silent_printErrAndExit].
Qed.

Create HintDb silent.

#[local] Hint Resolve silent_mret silent_halt silent_printErrAndExit
  silent_parseFailed silent_parseFilters : silent.

(** One stage of [main_setup]: settle the stage, whatever the outside world
    answered, and move on to the rest. *)
Ltac silent_stage :=
  apply silent_bind;
  [ repeat case_match; auto with silent | intros ? ].

Lemma main_setup_silent (world : World) : silent (main_setup world).
Proof.
  unfold main_setup. do 5 silent_stage.
  apply silent_bind; [repeat case_match; auto with silent|].
  intros [fl2 positional].
  apply silent_bind; [auto with silent|]. intros filters.
  auto with silent.
Qed.

(** C6. When the filters leave no target, all that the run does is report
    that the query matched no contexts and exit with status 1: it does not
    prompt and it dispatches no task. *)
Theorem main_no_match (world : World) (tr : list event) (fl : flags)
    (kubectlArgs ctxs : list bytes) (filters : list filter) :
  main_setup world = (tr, Some (fl, kubectlArgs, ctxs, filters)) →
  matchContexts (regexpMatch world) ctxs filters = [] →
  main world
  = ([Stderr (red world (str "error: ")
              ++ str "query matched no contexts from kubeconfig" ++ [nl]);
      Exit 1], None).
Proof.
  intros Hsetup Hempty.
  pose proof (main_setup_silent world _ _ Hsetup) as ->.
  unfold main. rewrite Hsetup. unfold mbind at 1, M_bind at 1. simpl.
  by rewrite Hempty.
Qed.

Lemma main_no_match_witness :
  main (sampleWorld [str "-q"; str "staging"; str "--"; str "get"; str "pods"] [])
  = ([Stderr (str "error: query matched no contexts from kubeconfig" ++ [nl]);
      Exit 1], None).
Proof.
  apply (main_no_match
           (sampleWorld [str "-q"; str "staging"; str "--"; str "get"; str "pods"] [])
           [] _ _ _ _ eq_refl eq_refl).
Defined.


(** * Further properties of the code *)

(** ** [maxLen] *)

(** X1. [maxLen] of no strings is 0; otherwise it is the length of one of the
    strings, and no string is longer. *)
Theorem maxLen_longest (s : list bytes) :
  maxLen [] = 0 ∧
  (∀ v, v ∈ s → len v ≤ maxLen s) ∧
  (s ≠ [] → ∃ v, v ∈ s ∧ maxLen s = len v).
Proof.
  split; [reflexivity|]. split; [intros v; apply maxLen_ge|].
  intros Hne. rewrite maxLen_max_list. unfold len.
  induction s as [|x s IH]; [done|].
  destruct (decide (s = [])) as [->|Hs].
  - exists x. split; [left|]. simpl. unfold id. lia.
  - destruct (IH Hs) as (v & Hv & Hmax).
    rewrite fmap_cons. cbn [max_list_with].
    destruct (Nat.max_spec (id (length x)) (max_list (length <$> s)))
      as [[_ Hm]|[_ Hm]]; rewrite Hm.
    + exists v. split; [by right|done].
    + exists x. split; [left|done].
Qed.

Lemma maxLen_longest_witness :
  ∃ v, v ∈ [str "dev"; str "staging"; str "prod"] ∧
       maxLen [str "dev"; str "staging"; str "prod"] = len v.
Proof.
  apply (proj2 (proj2 (maxLen_longest [str "dev"; str "staging"; str "prod"]))).
  discriminate.
Defined.

(** ** [runAll] *)

Lemma runAll_one_task_per_target_aux (world : World) (c : Z)
    (kubeCtxs : list bytes) (argMaker : bytes → list bytes) (stdout stderr : sink) :
  ∃ p, runAll world c kubeCtxs argMaker stdout stderr = Some p ∧
       argv <$> tasks p = argMaker <$> kubeCtxs.
Proof.
  destruct (runAll_Some world c kubeCtxs argMaker stdout stderr)
    as (ts & Hrun & Hts).
  eexists. split; [exact Hrun|]. simpl.
  apply list_eq. intros i. rewrite !list_lookup_fmap.
  destruct (kubeCtxs !! i) as [kctx|] eqn:Hk.
  - assert (Hin : kctx ∈ kubeCtxs) by (by eapply list_elem_of_lookup_2).
    destruct (runAll_task_Some world kubeCtxs argMaker stdout stderr i kctx Hin)
      as (colFn & _ & Heq).
    assert (Hi : imap (runAll_task world (maxLen kubeCtxs) argMaker stdout stderr)
                   kubeCtxs !! i
                 = Some (runAll_task world (maxLen kubeCtxs) argMaker stdout stderr
                           i kctx))
      by (by rewrite list_lookup_imap, Hk).
    destruct (Forall2_lookup_l _ _ _ _ _ Hts Hi) as (t & Ht & Ht').
    rewrite Heq in Ht'. simpl in Ht'. injection Ht' as <-.
    by rewrite Ht.
  - apply Forall2_length in Hts. rewrite length_imap in Hts.
    apply lookup_ge_None in Hk. rewrite (lookup_ge_None_2 ts i) by lia. done.
Qed.

(** X2. [runAll] builds one task per target, in the order of the targets, and
    the task of a target runs the argument vector that [argMaker] makes for
    that target. *)
Theorem runAll_one_task_per_target (world : World) (c : Z) (kubeCtxs : list bytes)
    (argMaker : bytes → list bytes) (stdout stderr : sink) :
  ∃ p, runAll world c kubeCtxs argMaker stdout stderr = Some p ∧
       argv <$> tasks p = argMaker <$> kubeCtxs ∧
       length (tasks p) = length kubeCtxs.
Proof.
  destruct (runAll_one_task_per_target_aux world c kubeCtxs argMaker stdout stderr)
    as (p & Hrun & Hargv).
  exists p. split; [done|]. split; [done|].
  rewrite <- (length_fmap argv), Hargv. apply length_fmap.
Qed.

(** Text without [%] is a format that prints itself. *)
Lemma fmt_Sprintf_literal (s : bytes) :
  "%"%char ∉ s → fmt_Sprintf s = Some s.
Proof.
  induction s as [|c s IH]; [done|]. intros Hc.
  apply not_elem_of_cons in Hc as [Hne Hs]. cbn [fmt_Sprintf].
  rewrite decide_False by done. by rewrite IH.
Qed.

(** With colours off, the label of a target is the padding computed from the
    name, then what [fmt.Sprintf] makes of the name, then the separator. *)
Lemma runAll_labels_formatted (world : World) (c : Z) (kubeCtxs : list bytes)
    (argMaker : bytes → list bytes) (stdout stderr : sink) :
  coloursOff world →
  ∃ p, runAll world c kubeCtxs argMaker stdout stderr = Some p ∧
    ∀ i kctx out, kubeCtxs !! i = Some kctx → fmt_Sprintf kctx = Some out →
      ∃ t, tasks p !! i = Some t ∧
           prefix (wo t)
           = replicate (Z.to_nat (maxLen kubeCtxs - len kctx)) " "%char
             ++ out ++ str " | " ∧
           prefix (we t) = prefix (wo t).
Proof.
  intros Hoff.
  destruct (runAll_Some world c kubeCtxs argMaker stdout stderr)
    as (ts & Hrun & Hts).
  eexists. split; [exact Hrun|]. simpl. intros i kctx out Hk Hout.
  assert (Hin : kctx ∈ kubeCtxs) by (by eapply list_elem_of_lookup_2).
  destruct (runAll_task_Some world kubeCtxs argMaker stdout stderr i kctx Hin)
    as (colFn & _ & Heq).
  assert (Hi : imap (runAll_task world (maxLen kubeCtxs) argMaker stdout stderr)
                 kubeCtxs !! i
               = Some (runAll_task world (maxLen kubeCtxs) argMaker stdout stderr
                         i kctx))
    by (by rewrite list_lookup_imap, Hk).
  destruct (Forall2_lookup_l _ _ _ _ _ Hts Hi) as (t & Ht & Ht').
  rewrite Heq in Ht'. simpl in Ht'. injection Ht' as <-.
  eexists. split; [exact Ht|]. simpl.
  by rewrite (Hoff colFn kctx out Hout).
Qed.

Lemma plainWorld_coloursOff : coloursOff plainWorld.
Proof. intros colFn format out Hout. simpl. by rewrite Hout. Qed.

(** C5 (code bug).  The claim wants every label to be the target's name,
    styled, padded to the width of the longest name.  [runAll] hands the name
    to the palette entry's [Sprintf] as its format, so a name with a [%] in it
    is not printed as it is.  With colours off and the Match Set [a%d],
    [100%], [x] the three labels are [" a%!d(MISSING) | "],
    ["100%!(NOVERB) | "] and ["   x | "], of 17, 16 and 7 bytes: two of them
    do not show the name, and they are not of one width. *)
Theorem runAll_labels_format_verbs (world : World) (c : Z)
    (argMaker : bytes → list bytes) (stdout stderr : sink) :
  coloursOff world →
  ∃ p, runAll world c [str "a%d"; str "100%"; str "x"] argMaker stdout stderr
       = Some p ∧
       (λ t, prefix (wo t)) <$> tasks p
       = [str " a%!d(MISSING) | "; str "100%!(NOVERB) | "; str "   x | "] ∧
       (λ t, prefix (we t)) <$> tasks p = (λ t, prefix (wo t)) <$> tasks p ∧
       (λ t, len (prefix (wo t))) <$> tasks p = [17; 16; 7].
Proof.
  intros Hoff.
  destruct (runAll_labels_formatted world c [str "a%d"; str "100%"; str "x"]
              argMaker stdout stderr Hoff) as (p & Hrun & Hlabel).
  destruct (runAll_one_task_per_target_aux world c
              [str "a%d"; str "100%"; str "x"] argMaker stdout stderr)
    as (p' & Hrun' & Hargv).
  rewrite Hrun in Hrun'. injection Hrun' as <-.
  apply (f_equal length) in Hargv. rewrite !length_fmap in Hargv.
  destruct (Hlabel 0%nat _ _ eq_refl eq_refl) as (t0 & Ht0 & Hwo0 & Hwe0).
  destruct (Hlabel 1%nat _ _ eq_refl eq_refl) as (t1 & Ht1 & Hwo1 & Hwe1).
  destruct (Hlabel 2%nat _ _ eq_refl eq_refl) as (t2 & Ht2 & Hwo2 & Hwe2).
  exists p. split; [exact Hrun|].
  destruct (tasks p) as [|u0 [|u1 [|u2 [|u3 us]]]]; try discriminate Hargv.
  injection Ht0 as ->. injection Ht1 as ->. injection Ht2 as ->.
  cbn [fmap list_fmap]. rewrite Hwe0, Hwe1, Hwe2, Hwo0, Hwo1, Hwo2.
  split; [reflexivity|]. split; reflexivity.
Qed.

Lemma runAll_labels_format_verbs_witness :
  ∃ p, runAll plainWorld 0 [str "a%d"; str "100%"; str "x"] (replaceArgs [] [])
              SyncStdout SyncStderr = Some p ∧
       (λ t, len (prefix (wo t))) <$> tasks p = [17; 16; 7].
Proof.
  destruct (runAll_labels_format_verbs plainWorld 0 (replaceArgs [] [])
              SyncStdout SyncStderr plainWorld_coloursOff)
    as (p & Hrun & _ & _ & Hlen).
  exists p. split; [exact Hrun|exact Hlen].
Defined.

(** X3. With colours off and for target names that hold no [%], every label
    is the padding, the name itself and [" | "], the same on both writers,
    and all labels of the run have one length: the longest name's length plus
    the three bytes of the separator. *)
Theorem runAll_labels_aligned (world : World) (c : Z) (kubeCtxs : list bytes)
    (argMaker : bytes → list bytes) (stdout stderr : sink) :
  coloursOff world →
  Forall (λ name, "%"%char ∉ name) kubeCtxs →
  ∃ p, runAll world c kubeCtxs argMaker stdout stderr = Some p ∧
       Forall2 (λ kctx t,
                  prefix (wo t)
                  = replicate (Z.to_nat (maxLen kubeCtxs - len kctx)) " "%char
                    ++ kctx ++ str " | " ∧
                  prefix (we t) = prefix (wo t) ∧
                  len (prefix (wo t)) = maxLen kubeCtxs + 3)
               kubeCtxs (tasks p).
Proof.
  intros Hoff Hnames.
  destruct (runAll_labels_formatted world c kubeCtxs argMaker stdout stderr Hoff)
    as (p & Hrun & Hlabel).
  destruct (runAll_one_task_per_target_aux world c kubeCtxs argMaker stdout stderr)
    as (p' & Hrun' & Hargv).
  rewrite Hrun in Hrun'. injection Hrun' as <-.
  apply (f_equal length) in Hargv. rewrite !length_fmap in Hargv.
  exists p. split; [exact Hrun|].
  apply Forall2_same_length_lookup. split; [done|].
  intros i kctx t Hk Ht.
  assert (Hin : kctx ∈ kubeCtxs) by (by eapply list_elem_of_lookup_2).
  rewrite Forall_forall in Hnames.
  destruct (Hlabel i kctx kctx Hk (fmt_Sprintf_literal _ (Hnames _ Hin)))
    as (t' & Ht' & Hwo & Hwe).
  rewrite Ht in Ht'. injection Ht' as <-.
  split; [done|]. split; [done|]. rewrite Hwo.
  unfold len. rewrite !length_app, length_replicate.
  apply maxLen_ge in Hin. unfold len in Hin. simpl. lia.
Qed.

Lemma runAll_labels_aligned_witness :
  ∃ p, runAll plainWorld 0 [str "dev"; str "staging"] (replaceArgs [] [])
              SyncStdout SyncStderr = Some p ∧
       Forall2 (λ kctx t,
                  prefix (wo t)
                  = replicate (Z.to_nat (maxLen [str "dev"; str "staging"] - len kctx))
                              " "%char
                    ++ kctx ++ str " | " ∧
                  prefix (we t) = prefix (wo t) ∧
                  len (prefix (wo t)) = maxLen [str "dev"; str "staging"] + 3)
               [str "dev"; str "staging"] (tasks p).
Proof.
  apply (runAll_labels_aligned plainWorld 0 [str "dev"; str "staging"]
           (replaceArgs [] []) SyncStdout SyncStderr plainWorld_coloursOff).
  apply (bool_decide_unpack _). by vm_compute.
Defined.

(** ** [replaceArgs] *)

(** X4. Without [-I], the built vector is one argument longer than the
    wrapped arguments, and two different targets never get the same vector. *)
Theorem replaceArgs_default_distinct (args : list bytes) (ctx1 ctx2 : bytes) :
  ctx1 ≠ ctx2 →
  replaceArgs args [] ctx1 ≠ replaceArgs args [] ctx2 ∧
  length (replaceArgs args [] ctx1) = S (length args).
Proof.
  intros Hne. split; [|reflexivity].
  unfold replaceArgs. simpl. intros [= Heq]. by apply Hne.
Qed.

Lemma replaceArgs_default_distinct_witness :
  replaceArgs [str "get"; str "pods"] [] (str "dev")
  ≠ replaceArgs [str "get"; str "pods"] [] (str "prod").
Proof.
  apply (proj1 (replaceArgs_default_distinct [str "get"; str "pods"]
                  (str "dev") (str "prod") ltac:(discriminate))).
Defined.

(** X5. With a non-empty [-I] value the built vector has as many arguments as
    the wrapped ones, position by position: an argument in which the value
    occurs becomes one in which the target name occurs, and an argument in
    which it does not occur is passed on unchanged. *)
Theorem replaceArgs_per_argument (args : list bytes) (repl ctx : bytes)
    (i : nat) (a : bytes) :
  repl ≠ [] →
  args !! i = Some a →
  length (replaceArgs args repl ctx) = length args ∧
  ∃ b, replaceArgs args repl ctx !! i = Some b ∧
       (occurs repl a → occurs ctx b) ∧
       (¬ occurs repl a → b = a).
Proof.
  intros Hne Ha. rewrite replaceArgs_map by done.
  split; [apply length_fmap|].
  exists (strings.Replace a repl ctx).
  split; [by rewrite list_lookup_fmap, Ha|]. split.
  - intros Hocc. pose proof (Replace_spec a repl ctx Hne) as Hrep.
    clear Ha. remember (strings.Replace a repl ctx) as b eqn:Hb. clear Hb.
    destruct Hrep as [s Hno|pre rest out _ _]; [done|].
    by exists pre, out.
  - apply Replace_no_occurrence.
Qed.

Lemma replaceArgs_per_argument_witness :
  ∃ b, replaceArgs [str "get"; str "--context={}"] (str "{}") (str "dev")
         !! 1%nat = Some b ∧
       (occurs (str "{}") (str "--context={}") → occurs (str "dev") b) ∧
       (¬ occurs (str "{}") (str "--context={}") → b = str "--context={}").
Proof.
  apply (proj2 (replaceArgs_per_argument [str "get"; str "--context={}"]
                  (str "{}") (str "dev") 1 (str "--context={}")
                  ltac:(discriminate) eq_refl)).
Defined.

(** ** [kubeContexts] *)

Section split_facts.
Import strings.

Lemma Join_cons (x : bytes) (l : list bytes) (sep : bytes) :
  l ≠ [] → Join (x :: l) sep = x ++ sep ++ Join l sep.
Proof. by destruct l. Qed.

Lemma Split_loop_nonempty (n : nat) (s sep : bytes) : Split_loop n s sep ≠ [].
Proof. destruct n; cbn [Split_loop]; [done|]. by destruct (Index s sep). Qed.

(** Joining what [Split] returns gives the string back. *)
Lemma Join_Split_loop (n : nat) (s sep : bytes) :
  Join (Split_loop n s sep) sep = s.
Proof.
  revert s. induction n as [|n IH]; intros s; cbn [Split_loop]; [done|].
  destruct (Index s sep) as [m|] eqn:Hm; [|done].
  rewrite Join_cons by apply Split_loop_nonempty.
  rewrite IH. by destruct (Index_Some _ _ _ Hm) as [<- _].
Qed.

(** No piece that [Split] returns holds the separator. *)
Lemma Split_loop_no_sep (fuel : nat) (s sep : bytes) :
  sep ≠ [] → (length s ≤ fuel)%nat →
  Forall (λ x, ¬ occurs sep x) (Split_loop (Count_loop fuel s sep) s sep).
Proof.
  intros Hne. assert (Hpos : (0 < length sep)%nat) by (destruct sep; [done|simpl; lia]).
  revert s. induction fuel as [|fuel IH]; intros s Hlen.
  - destruct s; [|simpl in Hlen; lia]. repeat constructor.
    intros (p & q & Hpq). apply (f_equal length) in Hpq.
    rewrite !length_app in Hpq. simpl in Hpq. lia.
  - cbn [Count_loop]. destruct (Index s sep) as [m|] eqn:Hm.
    + cbn [Split_loop]. rewrite Hm. constructor.
      * intros (p & q & Hpq).
        destruct (Index_Some _ _ _ Hm) as [Hdec Hmin].
        pose proof (Index_le _ _ _ Hm) as Hle.
        rewrite Hpq, <- !app_assoc in Hdec. specialize (Hmin _ _ Hdec).
        apply (f_equal length) in Hpq.
        rewrite length_take, !length_app in Hpq. lia.
      * apply IH. rewrite length_drop. lia.
    + cbn [Split_loop]. repeat constructor. by apply Index_None.
Qed.

Lemma Index_first (c : ascii) (x rest : bytes) :
  c ∉ x → Index (x ++ c :: rest) [c] = Some (length x).
Proof.
  induction x as [|a x IH]; intros Hc; cbn [Index app].
  - simpl. by rewrite bool_decide_eq_true_2.
  - apply not_elem_of_cons in Hc as [Hac Hx]. simpl.
    rewrite bool_decide_eq_false_2 by done. simpl.
    change (S <$> Index (x ++ c :: rest) [c] = Some (S (length x))).
    by rewrite IH.
Qed.

Lemma Index_absent (c : ascii) (x : bytes) : c ∉ x → Index x [c] = None.
Proof.
  intros Hc. destruct (Index x [c]) as [m|] eqn:Hm; [|done].
  destruct Hc. destruct (Index_Some _ _ _ Hm) as [-> _].
  apply elem_of_app. right. left.
Qed.

(** Splitting what [Join] made of strings free of the separator byte gives
    the strings back. *)
Lemma Split_loop_Join (fuel : nat) (c : ascii) (names : list bytes) :
  names ≠ [] → Forall (λ name, c ∉ name) names →
  (length (Join names [c]) ≤ fuel)%nat →
  Split_loop (Count_loop fuel (Join names [c]) [c]) (Join names [c]) [c] = names.
Proof.
  intros Hne Hall. revert fuel.
  induction Hall as [|x names Hx Hall IH]; [done|]. intros fuel Hlen.
  destruct (decide (names = [])) as [->|Hnames].
  - simpl. destruct fuel as [|fuel]; [done|].
    cbn [Count_loop]. by rewrite Index_absent.
  - rewrite Join_cons in * by done. rewrite length_app in Hlen. simpl in Hlen.
    destruct fuel as [|fuel]; [lia|]. cbn [Count_loop app].
    rewrite Index_first by done. cbn [Split_loop]. rewrite Index_first by done.
    rewrite take_app_length.
    replace (drop (length x + length [c]) (x ++ c :: Join names [c]))
      with (Join names [c]).
    + f_equal. apply IH; [done|lia].
    + simpl. rewrite drop_app_add'; [|done]. reflexivity.
Qed.

End split_facts.

Section trim_shape.
Import strings.

Lemma whitespace_app (a b : bytes) :
  whitespace a → whitespace b → whitespace (a ++ b).
Proof.
  intros Ha Hb. induction Ha as [|r s Hr _ IH]; [done|].
  rewrite <- app_assoc. by constructor.
Qed.

Lemma leadingSpace_None (s : bytes) :
  leadingSpace s = None ↔ ∀ r, r ∈ spaceRunes → ¬ r `prefix_of` s.
Proof.
  unfold leadingSpace. rewrite fmap_None, list_find_None, Forall_forall.
  split; intros H r Hr.
  - intros Hp%HasPrefix_spec. apply (H r Hr). by apply Is_true_eq_left.
  - intros Hp%Is_true_eq_true%HasPrefix_spec. by apply (H r Hr).
Qed.

(** What the left trim drops is white space. *)
Lemma trimLeft_loop_shape (fuel : nat) (s : bytes) :
  ∃ pre, s = pre ++ trimLeft_loop fuel s ∧ whitespace pre.
Proof.
  revert s. induction fuel as [|fuel IH]; intros s; cbn [trimLeft_loop].
  - exists []. split; [done|constructor].
  - destruct (leadingSpace s) as [k|] eqn:Hk.
    + apply leadingSpace_Some in Hk as (r & Hr & [rest ->] & ->).
      rewrite drop_app_length. destruct (IH rest) as (pre & Hpre & Hws).
      exists (r ++ pre). split; [by rewrite <- app_assoc, <- Hpre|].
      by constructor.
    + exists []. split; [done|constructor].
Qed.

(** What the right trim drops is white space, and what it keeps is a prefix. *)
Lemma trimRight_loop_shape (fuel : nat) (s : bytes) :
  ∃ post, s = trimRight_loop fuel s ++ post ∧ whitespace post.
Proof.
  revert s. induction fuel as [|fuel IH]; intros s; cbn [trimRight_loop].
  - exists []. split; [by rewrite app_nil_r|constructor].
  - destruct (trailingSpace s) as [k|] eqn:Hk.
    + apply trailingSpace_Some in Hk as (r & Hr & [front ->] & ->).
      rewrite length_app.
      replace (length front + length r - length r)%nat with (length front) by lia.
      rewrite take_app_length. destruct (IH front) as (post & Hpost & Hws).
      exists (post ++ r). split; [by rewrite app_assoc, <- Hpost|].
      apply whitespace_app; [done|].
      rewrite <- (app_nil_r r). constructor; [done|constructor].
    + exists []. split; [by rewrite app_nil_r|constructor].
Qed.

(** [TrimSpace] cuts white space, and only white space, off both ends, and
    leaves none there. *)
Lemma TrimSpace_shape (s : bytes) :
  ∃ pre post, s = pre ++ TrimSpace s ++ post ∧ whitespace pre ∧ whitespace post
    ∧ leadingSpace (TrimSpace s) = None ∧ trailingSpace (TrimSpace s) = None.
Proof.
  unfold TrimSpace, TrimRightSpace, TrimLeftSpace.
  destruct (trimLeft_loop_shape (length s) s) as (pre & Hpre & Hws1).
  pose proof (trimLeft_loop_done (length s) s (le_n _)) as Hlead.
  set (t := trimLeft_loop (length s) s) in *.
  destruct (trimRight_loop_shape (length t) t) as (post & Hpost & Hws2).
  pose proof (trimRight_loop_done (length t) t (le_n _)) as Htrail.
  set (u := trimRight_loop (length t) t) in *.
  exists pre, post. split; [by rewrite <- Hpost|].
  split; [done|]. split; [done|]. split; [|done].
  apply leadingSpace_None. intros r Hr Hp.
  rewrite leadingSpace_None in Hlead. apply (Hlead r Hr).
  rewrite Hpost. by apply prefix_app_r.
Qed.

Lemma spaceRunes_last_nl (r : bytes) :
  r ∈ spaceRunes → last r = Some nl → r = [nl].
Proof.
  assert (Hall : Forall (λ r, last r = Some nl → r = [nl]) spaceRunes).
  { apply (bool_decide_unpack _). by vm_compute. }
  rewrite Forall_forall in Hall. apply Hall.
Qed.

Lemma nl_spaceRune : [nl] ∈ spaceRunes.
Proof. apply (bool_decide_unpack _). by vm_compute. Qed.

Lemma leadingSpace_app_nl (t : bytes) :
  t ≠ [] → leadingSpace t = None → leadingSpace (t ++ [nl]) = None.
Proof.
  intros Hne Hlead. rewrite leadingSpace_None in *. intros r Hr Hp.
  destruct (prefix_weak_total r t (t ++ [nl]) Hp) as [H|[u ->]];
    [by exists [nl]|by apply (Hlead r Hr)|].
  apply prefix_app_inv in Hp.
  destruct u as [|c u].
  - apply (Hlead t); [by rewrite app_nil_r in Hr|done].
  - apply prefix_cons_inv_1 in Hp as Hc. apply prefix_cons_inv_2 in Hp.
    apply prefix_nil_inv in Hp. subst.
    assert (Hr' : t ++ [nl] = [nl]).
    { apply spaceRunes_last_nl; [done|apply last_snoc]. }
    destruct t; [done|]. by destruct t.
Qed.

Lemma trailingSpace_app_nl (t : bytes) : trailingSpace (t ++ [nl]) = Some 1%nat.
Proof.
  destruct (list_find_elem_of
              (λ r, HasPrefix (reverse (t ++ [nl])) (reverse r)) spaceRunes
              [nl] nl_spaceRune) as [[i r] Hfind].
  { apply Is_true_eq_left, HasPrefix_spec. rewrite reverse_snoc.
    by apply prefix_cons, prefix_nil. }
  unfold trailingSpace. rewrite Hfind. simpl. f_equal.
  apply list_find_Some in Hfind as (Hi & Hp & _).
  apply Is_true_eq_true, HasPrefix_spec in Hp.
  assert (Hin : r ∈ spaceRunes) by (by eapply list_elem_of_lookup_2).
  rewrite (spaceRunes_last_nl r Hin); [done|].
  rewrite reverse_snoc in Hp.
  pose proof (spaceRunes_nonempty r Hin) as Hlen.
  destruct (reverse r) as [|c u] eqn:Hrev.
  { apply (f_equal length) in Hrev. rewrite length_reverse in Hrev.
    simpl in Hrev. lia. }
  apply prefix_cons_inv_1 in Hp. subst c.
  apply (f_equal reverse) in Hrev. rewrite reverse_involutive in Hrev.
  rewrite Hrev, reverse_cons. apply last_snoc.
Qed.

(** A text with no white space at its ends, followed by a newline, is trimmed
    to the text. *)
Lemma TrimSpace_line (t : bytes) :
  t ≠ [] → leadingSpace t = None → trailingSpace t = None →
  TrimSpace (t ++ [nl]) = t.
Proof.
  intros Hne Hlead Htrail. unfold TrimSpace, TrimLeftSpace.
  rewrite length_app. simpl. rewrite Nat.add_1_r. cbn [trimLeft_loop].
  rewrite leadingSpace_app_nl by done.
  unfold TrimRightSpace. rewrite length_app. simpl. rewrite Nat.add_1_r.
  cbn [trimRight_loop]. rewrite trailingSpace_app_nl.
  rewrite length_app. simpl.
  replace (length t + 1 - 1)%nat with (length t) by lia.
  rewrite take_app_length.
  destruct t as [|c t]; [done|]. cbn [length trimRight_loop].
  by rewrite Htrail.
Qed.

End trim_shape.

(** X6. The names that [kubeContexts] returns, joined by newlines, are the
    provider's output without the white space at its two ends: nothing but
    white space is cut, none is left at either end, and no name holds a
    newline. *)
Theorem kubeContexts_shape (out : bytes) :
  ∃ names pre post,
    kubeContexts (CmdOk out) = inl names ∧
    out = pre ++ Join names [nl] ++ post ∧
    whitespace pre ∧ whitespace post ∧
    strings.leadingSpace (Join names [nl]) = None ∧
    strings.trailingSpace (Join names [nl]) = None ∧
    Forall (λ name, nl ∉ name) names.
Proof.
  destruct (TrimSpace_shape out) as (pre & post & Hout & Hpre & Hpost & Hl & Ht).
  exists (strings.Split (strings.TrimSpace out) [nl]), pre, post.
  split; [reflexivity|]. unfold strings.Split. rewrite Join_Split_loop.
  do 5 (split; [done|]).
  eapply Forall_impl; [by apply Split_loop_no_sep|].
  intros name Hno Hin. apply Hno.
  apply list_elem_of_split in Hin as (p & q & ->). by exists p, q.
Qed.

(** X7. When the provider prints names, one per line, that hold no newline
    and leave no white space at the start of the first or the end of the last
    one, [kubeContexts] returns exactly these names. *)
Theorem kubeContexts_lines (names : list bytes) :
  Join names [nl] ≠ [] →
  Forall (λ name, nl ∉ name) names →
  strings.leadingSpace (Join names [nl]) = None →
  strings.trailingSpace (Join names [nl]) = None →
  kubeContexts (CmdOk (Join names [nl] ++ [nl])) = inl names.
Proof.
  intros Hne Hall Hlead Htrail. simpl.
  rewrite TrimSpace_line by done. f_equal.
  apply Split_loop_Join; [by intros ->|done|done].
Qed.

Lemma kubeContexts_lines_witness :
  kubeContexts (CmdOk (Join [str "dev"; str "prod us"; str "test"] [nl] ++ [nl]))
  = inl [str "dev"; str "prod us"; str "test"].
Proof.
  apply (kubeContexts_lines [str "dev"; str "prod us"; str "test"]).
  - discriminate.
  - apply (bool_decide_unpack _). by vm_compute.
  - reflexivity.
  - reflexivity.
Defined.

(** ** [prompt], for any input and with cancellation *)

(** Settle a case of the invariant: pick the disjuncts, close by the
    equations at hand. *)
Ltac inv_case :=
  repeat match goal with
         | H : _ ∨ _ |- _ => destruct H
         | H : _ ∧ _ |- _ => destruct H
         | H : ∃ _, _ |- _ => destruct H
         end;
  simplify_eq; eauto 10.

Lemma prompt_inv_any_step (input : option bytes) (s s' : promptState) :
  prompt_inv_any input s → prompt_step input s s' → prompt_inv_any input s'.
Proof.
  unfold prompt_inv_any, approving, refusing. intros Hinv Hstep.
  inversion Hstep as [v d r Hv|d r Hv|pc r|d|d|pc]; subst; simpl in *.
  - destruct r as [[err|]|]; destruct (accepted v) eqn:Hacc; inv_case.
  - destruct r as [[err|]|]; inv_case.
  - destruct r as [[err|]|]; inv_case.
  - inv_case.
  - inv_case.
  - inv_case; right; repeat split; done.
Qed.

Lemma prompt_inv_any_reaches (input : option bytes) (s : promptState) :
  prompt_reaches input s → prompt_inv_any input s.
Proof.
  unfold prompt_reaches. revert s. apply rtc_ind_r.
  - by left.
  - intros s s' _ Hstep IH. by eapply prompt_inv_any_step.
Qed.

Lemma errors_differ : errRefused ≠ errCanceled.
Proof. discriminate. Qed.

(** X8. Whatever the input and whenever the context is cancelled: [prompt]
    returns [nil] only if a line was read and was empty, ["y"] or ["Y"]; it
    returns the refusal only if no line was read or the line was another one;
    and it returns nothing but [nil], the refusal, or, with the context done,
    the cancellation error. *)
Theorem prompt_results_sound (input : option bytes) (s : promptState)
    (r : option bytes) :
  prompt_reaches input s →
  returned s = Some r →
  (r = None → ∃ v, input = Some v ∧ (v = [] ∨ v = str "y" ∨ v = str "Y")) ∧
  (r = Some errRefused →
     input = None ∨ ∃ v, input = Some v ∧ ¬ (v = [] ∨ v = str "y" ∨ v = str "Y")) ∧
  (r = None ∨ r = Some errRefused ∨ (r = Some errCanceled ∧ ctxDone s = true)).
Proof.
  intros Hs Hr. apply prompt_inv_any_reaches in Hs.
  unfold prompt_inv_any, approving, refusing in Hs. rewrite Hr in Hs.
  destruct r as [err|].
  - split; [done|]. split.
    + intros [= ->]. destruct Hs as [(_ & _ & Href)|(Hc & _)].
      * destruct Href as [?|(v & Hv & Hacc)]; [by left|]. right.
        exists v. split; [done|]. rewrite <- accepted_iff. congruence.
      * by destruct errors_differ.
    + destruct Hs as [(-> & _)|(-> & ? & _)]; auto.
  - destruct Hs as (_ & v & Hv & Hacc). split; [|split; [done|by left]].
    intros _. exists v. split; [done|]. by apply accepted_iff.
Qed.

Lemma prompt_results_sound_witness :
  ∃ v, Some (str "Y") = Some v ∧ (v = [] ∨ v = str "y" ∨ v = str "Y").
Proof.
  refine (proj1 (prompt_results_sound (Some (str "Y"))
            {| scanner := AtSendErr; ctxDone := true; returned := Some None |}
            None _ eq_refl) eq_refl).
  eapply rtc_l; [by apply (step_scan_line _ (str "Y"))|].
  eapply rtc_l; [apply step_cancel|].
  eapply rtc_l; [apply step_recv_nil|]. apply rtc_refl.
Defined.

(** X9. As long as the scanner has delivered nothing, which is for good once
    the input has ended without a line (the pipe stays open until [prompt]
    returns), [prompt] returns only by cancellation: if it has returned, it
    returned the cancellation error with the context done; and while the
    context is not done it has not returned and no step makes it return. *)
Theorem prompt_waits_for_a_line (input : option bytes) (s : promptState) :
  prompt_reaches input s →
  scanner s = InScan →
  (∀ r, returned s = Some r → r = Some errCanceled ∧ ctxDone s = true) ∧
  (ctxDone s = false →
   returned s = None ∧ ∀ s', prompt_step input s s' → returned s' = None).
Proof.
  intros Hs Hpc. apply prompt_inv_any_reaches in Hs.
  unfold prompt_inv_any in Hs. rewrite Hpc in Hs.
  destruct s as [pc d ret]. simpl in *. subst pc. split.
  - intros r ->. destruct r as [err|].
    + destruct Hs as [(_ & [=] & _)|(-> & -> & _)]. done.
    + by destruct Hs as [[=] _].
  - intros ->. destruct ret as [[err|]|].
    + by destruct Hs as [(_ & [=] & _)|(_ & [=] & _)].
    + by destruct Hs as [[=] _].
    + split; [done|]. intros s' Hstep. by inversion Hstep.
Qed.

Lemma prompt_waits_for_a_line_witness :
  Some errCanceled = Some errCanceled ∧ true = true.
Proof.
  refine (proj1 (prompt_waits_for_a_line None
            {| scanner := InScan; ctxDone := true;
               returned := Some (Some errCanceled) |} _ eq_refl)
            (Some errCanceled) eq_refl).
  eapply rtc_l; [apply step_cancel|].
  eapply rtc_l; [apply step_recv_done|]. apply rtc_refl.
Defined.

(** X10. The scanning goroutine ends only in a run in which [prompt] returns
    the refusal.  Once [prompt] has returned [nil] the goroutine sits in its
    second send, and once [prompt] has returned the cancellation error the
    goroutine has not ended, in every later state of the run: in both cases
    it never ends. *)
Theorem prompt_goroutine_ends_only_on_refusal (input : option bytes)
    (s : promptState) :
  prompt_reaches input s →
  (scanner s = ScannerExited → returned s = Some (Some errRefused)) ∧
  (returned s = Some None → scanner s = AtSendErr) ∧
  (returned s = Some (Some errCanceled) → scanner s ≠ ScannerExited).
Proof.
  intros Hs. apply prompt_inv_any_reaches in Hs. unfold prompt_inv_any in Hs.
  destruct (returned s) as [[err|]|] eqn:Hr.
  - destruct Hs as [(-> & Hpc & _)|(-> & _ & Hpc)].
    + split; [done|]. split; [done|].
      intros Heq. injection Heq as Heq. by destruct errors_differ.
    + split; [done|]. split; done.
  - destruct Hs as [Hpc _]. rewrite Hpc. split; [done|]. split; done.
  - split; [|split; done].
    destruct Hs as [->|[[-> _]|[-> _]]]; done.
Qed.

Lemma prompt_goroutine_ends_only_on_refusal_witness :
  scanner {| scanner := AtSendErr; ctxDone := false; returned := Some None |}
  = AtSendErr.
Proof.
  refine (proj1 (proj2 (prompt_goroutine_ends_only_on_refusal (Some [])
            {| scanner := AtSendErr; ctxDone := false; returned := Some None |}
            _)) eq_refl).
  eapply rtc_l; [by apply (step_scan_line _ [])|].
  eapply rtc_l; [apply step_recv_nil|]. apply rtc_refl.
Defined.

(** ** [main]: the gate, the dispatch and the early exits *)

(** The gate, case by case. *)
Lemma main_confirm_cases (world : World) (fl : flags) (ctxMatches : list bytes) :
  main_confirm world fl ctxMatches =
  if decide (Getenv world envDisablePrompts = []) then
    if quiet fl then (listing world ctxMatches, Some ())
    else
      (Stderr (str "Will run command in context(s):" ++ [nl])
         :: listing world ctxMatches
         ++ [Stderr (str "Continue? [Y/n]: "); ReadPrompt]
         ++ match promptResult world with
            | Some err => [Stderr (red world (str "error: ") ++ err ++ [nl]); Exit 1]
            | None => []
            end,
       match promptResult world with Some _ => None | None => Some () end)
  else ([], Some ()).
Proof.
  unfold main_confirm. rewrite list_targets_events by done. simpl.
  destruct (decide _); [|done]. destruct (quiet fl); [done|].
  unfold mbind, M_bind, emit. simpl.
  destruct (promptResult world); simpl; by rewrite <- ?app_assoc.
Qed.

Lemma main_run_nonempty (world : World) (fl : flags)
    (kubectlArgs ctxMatches : list bytes) :
  ctxMatches ≠ [] →
  main_run world fl kubectlArgs ctxMatches
  = main_confirm world fl ctxMatches ≫= λ _, main_dispatch world fl kubectlArgs ctxMatches.
Proof.
  intros Hne. unfold main_run.
  destruct (Z.eqb_spec (len ctxMatches) 0) as [Hz|_].
  - destruct ctxMatches; [done|]. unfold len in Hz. simpl in Hz. lia.
  - unfold mbind at 1, M_bind at 1. simpl.
    by destruct (main_confirm world fl ctxMatches ≫= _) as [tr r].
Qed.

(** [main_dispatch] never panics. *)
Lemma main_dispatch_cases (world : World) (fl : flags)
    (kubectlArgs ctxMatches : list bytes) :
  ∃ p, runAll world (workers fl) ctxMatches (replaceArgs kubectlArgs (repl fl))
              SyncStdout SyncStderr = Some p ∧
       main_dispatch world fl kubectlArgs ctxMatches =
       (Dispatch p :: match Wait world p with
                      | Some err => [Stderr (red world (str "error: ") ++ err ++ [nl]);
                                     Exit 1]
                      | None => []
                      end,
        match Wait world p with Some _ => None | None => Some () end).
Proof.
  destruct (runAll_Some world (workers fl) ctxMatches
              (replaceArgs kubectlArgs (repl fl)) SyncStdout SyncStderr)
    as (ts & Hrun & _).
  eexists. split; [exact Hrun|]. unfold main_dispatch. rewrite Hrun.
  unfold mbind, M_bind, emit. simpl. by destruct (Wait world _).
Qed.

(** X11. When the user is asked and [prompt] returns an error (a refusal or a
    cancellation), the run prints the question, the targets and the error,
    and exits with status 1; no task is dispatched. *)
Theorem main_run_refused (world : World) (fl : flags)
    (kubectlArgs ctxMatches : list bytes) (err : bytes) :
  ctxMatches ≠ [] →
  Getenv world envDisablePrompts = [] →
  quiet fl = false →
  promptResult world = Some err →
  main_run world fl kubectlArgs ctxMatches
  = (Stderr (str "Will run command in context(s):" ++ [nl])
       :: listing world ctxMatches
       ++ [ Stderr (str "Continue? [Y/n]: "); ReadPrompt;
            Stderr (red world (str "error: ") ++ err ++ [nl]); Exit 1 ],
     None).
Proof.
  intros Hne Henv Hq Hp. rewrite main_run_nonempty by done.
  rewrite main_confirm_cases, decide_True, Hq, Hp by done.
  reflexivity.
Qed.

Lemma main_run_refused_witness :
  main_run (sampleWorldWith sampleParse (Some errRefused) (CmdOk []) []) flagDefaults
           [str "get"] [str "dev"]
  = ([ Stderr (str "Will run command in context(s):" ++ [nl]);
       Stderr (str "  - dev" ++ [nl]);
       Stderr (str "Continue? [Y/n]: "); ReadPrompt;
       Stderr (str "error: user refused execution" ++ [nl]); Exit 1 ],
     None).
Proof.
  apply (main_run_refused (sampleWorldWith sampleParse (Some errRefused) (CmdOk []) [])
           flagDefaults [str "get"] [str "dev"] errRefused);
    [discriminate|reflexivity..].
Defined.

(** X12. Once the gate lets a non-empty Match Set pass, the tasks are
    dispatched once, after everything the gate wrote, one task per matched
    target with the vector [replaceArgs] builds for it.  If [Wait] reports a
    failed task the run prints the error and exits with status 1; otherwise
    [main] returns. *)
Theorem main_run_dispatches (world : World) (fl : flags)
    (kubectlArgs ctxMatches : list bytes) (gate : list event) :
  ctxMatches ≠ [] →
  main_confirm world fl ctxMatches = (gate, Some ()) →
  ∃ p,
    argv <$> tasks p = replaceArgs kubectlArgs (repl fl) <$> ctxMatches ∧
    main_run world fl kubectlArgs ctxMatches =
    (gate ++ Dispatch p ::
       match Wait world p with
       | Some err => [Stderr (red world (str "error: ") ++ err ++ [nl]); Exit 1]
       | None => []
       end,
     match Wait world p with Some _ => None | None => Some () end).
Proof.
  intros Hne Hgate. rewrite main_run_nonempty, Hgate by done.
  destruct (main_dispatch_cases world fl kubectlArgs ctxMatches)
    as (p & Hrun & ->).
  exists p. split; [|reflexivity].
  destruct (runAll_one_task_per_target_aux world (workers fl) ctxMatches
              (replaceArgs kubectlArgs (repl fl)) SyncStdout SyncStderr)
    as (p' & Hrun' & Hargv).
  congruence.
Qed.

Lemma main_run_dispatches_witness :
  ∃ p,
    argv <$> tasks p = [[str "--context=dev"; str "get"]] ∧
    main_run (sampleWorld [] []) {| repl := []; workers := 0; quiet := true |}
             [str "get"] [str "dev"]
    = ([Stderr (str "  - dev" ++ [nl]); Dispatch p], Some ()).
Proof.
  destruct (main_run_dispatches (sampleWorld [] [])
              {| repl := []; workers := 0; quiet := true |}
              [str "get"] [str "dev"] [Stderr (str "  - dev" ++ [nl])]
              ltac:(discriminate) eq_refl) as (p & Hargv & Hrun).
  exists p. split; [exact Hargv|]. exact Hrun.
Defined.

Lemma sound_bind {A B} (m : M A) (k : A → M B) :
  Forall sound m.1 → (∀ a, Forall sound (k a).1) → Forall sound (m ≫= k).1.
Proof.
  intros Hm Hk. destruct m as [tr [a|]]; unfold mbind, M_bind; simpl in *; [|done].
  apply Forall_app. split; [done|apply Hk].
Qed.

Lemma sound_printErrAndExit {A} (world : World) (msg : bytes) :
  Forall sound (printErrAndExit (A := A) world msg).1.
Proof. by repeat constructor. Qed.

Lemma sound_parseFailed {A} (world : World) (help : bool) (msg : bytes) :
  Forall sound (parseFailed (A := A) world help msg).1.
Proof. destruct help; by repeat constructor. Qed.

Lemma sound_parseFilters (world : World) (args : list bytes) (filters : list filter) :
  Forall sound (parseFilters world args filters).1.
Proof.
  revert filters. induction args as [|arg args IH]; intros filters; simpl.
  - constructor.
  - destruct (parseFilter world arg); [apply IH|apply sound_printErrAndExit].
Qed.

Lemma sound_main_setup (world : World) : Forall sound (main_setup world).1.
Proof.
  unfold main_setup.
  apply sound_bind.
  { destruct (flagParse _ _ _); [constructor|apply sound_parseFailed]. }
  intros fl1. apply sound_bind.
  { destruct (separateArgs _ _) as [[? ?] [?|]];
      [apply sound_printErrAndExit|constructor]. }
  intros kubectlArgs. apply sound_bind.
  { destruct (workers fl1 <? 0); [apply sound_printErrAndExit|constructor]. }
  intros _. apply sound_bind.
  { destruct (kubeContexts _); [constructor|apply sound_printErrAndExit]. }
  intros ctxs. apply sound_bind.
  { rewrite trimSuffix_unfold. constructor. }
  intros own. apply sound_bind.
  { destruct (flagParse _ _ _); [constructor|apply sound_parseFailed]. }
  intros [fl2 positional]. apply sound_bind.
  { apply sound_parseFilters. }
  intros filters. constructor.
Qed.

Lemma sound_listing (world : World) (ctxMatches : list bytes) :
  Forall sound (listing world ctxMatches).
Proof. unfold listing. apply Forall_fmap, Forall_true. by intros c. Qed.

Lemma sound_main_confirm (world : World) (fl : flags) (ctxMatches : list bytes) :
  Forall sound (main_confirm world fl ctxMatches).1.
Proof.
  rewrite main_confirm_cases. pose proof (sound_listing world ctxMatches).
  destruct (decide _); [|constructor]. destruct (quiet fl); [done|]. simpl.
  constructor; [done|]. apply Forall_app. split; [done|].
  destruct (promptResult world); by repeat constructor.
Qed.

Lemma sound_main_run (world : World) (fl : flags)
    (kubectlArgs ctxMatches : list bytes) :
  Forall sound (main_run world fl kubectlArgs ctxMatches).1.
Proof.
  destruct (decide (ctxMatches = [])) as [->|Hne].
  { by repeat constructor. }
  rewrite main_run_nonempty by done. apply sound_bind.
  { apply sound_main_confirm. }
  intros _.
  destruct (main_dispatch_cases world fl kubectlArgs ctxMatches)
    as (p & Hrun & ->).
  destruct (runAll_Some world (workers fl) ctxMatches
              (replaceArgs kubectlArgs (repl fl)) SyncStdout SyncStderr)
    as (ts & Hrun' & Hts).
  rewrite Hrun in Hrun'. injection Hrun' as ->.
  apply Forall2_length in Hts. rewrite length_imap in Hts.
  simpl. constructor.
  - simpl. split.
    + destruct (Z.gtb_spec (workers fl) 0); [lia|].
      unfold len. destruct ctxMatches; [done|]. simpl. lia.
    + intros ->. by destruct ctxMatches.
  - destruct (Wait world _); by repeat constructor.
Qed.

(** X13. No run of [main] panics: no index of [trimSuffix] or of the palette
    is out of range and [strings.Repeat] never gets a negative count.  And
    whenever [main] hands tasks to the errgroup there is at least one task
    and the limit is at least one. *)
Theorem main_events_sound (world : World) :
  (Panic ∉ (main world).1) ∧
  (∀ p, Dispatch p ∈ (main world).1 → 1 ≤ limit p ∧ tasks p ≠ []).
Proof.
  assert (Hall : Forall sound (main world).1).
  { unfold main. apply sound_bind; [apply sound_main_setup|].
    intros [[[fl kubectlArgs] ctxs] filters]. apply sound_main_run. }
  rewrite Forall_forall in Hall. split.
  - intros Hin. apply (Hall _ Hin).
  - intros p Hin. apply (Hall _ Hin).
Qed.

Lemma main_events_sound_witness :
  ∃ p, Dispatch p ∈ (main (sampleWorld [str "-q"; str "--"; str "get"] [])).1
       ∧ 1 ≤ limit p ∧ tasks p ≠ [].
Proof.
  assert (Htr : ∃ tr p, (main (sampleWorld [str "-q"; str "--"; str "get"] [])).1
                        = tr ++ [Dispatch p]).
  { vm_compute. by eexists [_; _], _. }
  destruct Htr as (tr & p & Htr).
  assert (Hin : Dispatch p ∈ (main (sampleWorld [str "-q"; str "--"; str "get"] [])).1).
  { rewrite Htr. apply elem_of_app. right. left. }
  exists p. split; [exact Hin|].
  exact (proj2 (main_events_sound (sampleWorld [str "-q"; str "--"; str "get"] []))
           p Hin).
Defined.

(** X14. A negative [-c] is fatal: when the first parse leaves a negative
    value and the arguments separate, all that the run does is print
    ["-c < 0"] as an error and exit with status 1, whatever the provider, the
    filters and the second parse would have given. *)
Theorem main_negative_workers (world : World) (f : flags)
    (positional own kubectlArgs : list bytes) :
  flagParse world flagDefaults (osArgs world) = ParseOk f positional →
  separateArgs world (osArgs world) = (own, kubectlArgs, None) →
  workers f < 0 →
  main world = ([Stderr (red world (str "error: ") ++ str "-c < 0" ++ [nl]); Exit 1],
                None).
Proof.
  intros Hparse Hsep Hneg. unfold main, main_setup. rewrite Hparse, Hsep.
  unfold mbind, M_bind. simpl.
  destruct (Z.ltb_spec (workers f) 0); [|lia]. reflexivity.
Qed.

Lemma main_negative_workers_witness :
  main (sampleWorldWith
          (λ f args, ParseOk {| repl := []; workers := -1; quiet := false |} [])
          None (CmdOk []) [str "-c=-1"; str "--"; str "get"])
  = ([Stderr (str "error: -c < 0" ++ [nl]); Exit 1], None).
Proof.
  apply (main_negative_workers
           (sampleWorldWith
              (λ f args, ParseOk {| repl := []; workers := -1; quiet := false |} [])
              None (CmdOk []) [str "-c=-1"; str "--"; str "get"])
           {| repl := []; workers := -1; quiet := false |} [] [str "-c=-1"] [str "get"]
           eq_refl eq_refl).
  simpl. lia.
Defined.

(** X15. When the first [fl.Parse] fails, the run ends inside the [flag]
    package's call of [fl.Usage]: after the package's message (none for
    [-h]) it prints the usage text and exits with status 0.  The error
    report of lines 79-83, with its exit status 1, is never reached. *)
Theorem main_parse_failure_exits_0 (world : World) (help : bool) (msg : bytes) :
  flagParse world flagDefaults (osArgs world) = ParseErr help msg →
  main world
  = ((if help then [] else [Stderr (msg ++ [nl])]) ++ [Stderr usage; Exit 0], None).
Proof.
  intros Hparse. unfold main, main_setup. rewrite Hparse. by destruct help.
Qed.

Lemma main_parse_failure_exits_0_witness :
  main (sampleWorldWith
          (λ f args, ParseErr false (str "flag provided but not defined: -x"))
          None (CmdOk []) [str "-x"; str "--"; str "get"])
  = ([Stderr (str "flag provided but not defined: -x" ++ [nl]);
      Stderr usage; Exit 0], None).
Proof.
  apply (main_parse_failure_exits_0
           (sampleWorldWith
              (λ f args, ParseErr false (str "flag provided but not defined: -x"))
              None (CmdOk []) [str "-x"; str "--"; str "get"])
           false (str "flag provided but not defined: -x") eq_refl).
Defined.


(** X16. When the provider fails, after a first parse without error, a
    successful separation and a [-c] that is not negative, all that the run
    does is print ["failed to get contexts: "] followed by the provider's
    error and exit with status 1. *)
Theorem main_provider_failure (world : World) (f : flags)
    (positional own kubectlArgs : list bytes) (err : bytes) :
  flagParse world flagDefaults (osArgs world) = ParseOk f positional →
  separateArgs world (osArgs world) = (own, kubectlArgs, None) →
  0 ≤ workers f →
  getContexts world = CmdFailed err →
  main world
  = ([Stderr (red world (str "error: ") ++ str "failed to get contexts: "
              ++ err ++ [nl]); Exit 1], None).
Proof.
  intros Hparse Hsep Hpos Hctx. unfold main, main_setup.
  rewrite Hparse, Hsep, Hctx.
  unfold mbind, M_bind. simpl.
  destruct (Z.ltb_spec (workers f) 0); [lia|].
  simpl. by rewrite <- ?app_assoc.
Qed.

Lemma main_provider_failure_witness :
  main (sampleWorldWith sampleParse None (CmdFailed (str "exit status 1"))
          [str "--"; str "get"])
  = ([Stderr (str "error: failed to get contexts: exit status 1" ++ [nl]); Exit 1],
     None).
Proof.
  apply (main_provider_failure
           (sampleWorldWith sampleParse None (CmdFailed (str "exit status 1"))
              [str "--"; str "get"])
           flagDefaults [str "get"] [] [str "get"] (str "exit status 1")
           eq_refl eq_refl ltac:(simpl; lia) eq_refl).
Defined.

(** X17. The gate calls [prompt] exactly when the environment variable is
    unset or empty and [-q] is not given. *)
Theorem main_confirm_prompts_iff (world : World) (fl : flags)
    (ctxMatches : list bytes) :
  ReadPrompt ∈ (main_confirm world fl ctxMatches).1 ↔
  Getenv world envDisablePrompts = [] ∧ quiet fl = false.
Proof.
  assert (Hlist : ReadPrompt ∉ listing world ctxMatches).
  { unfold listing. intros (c & [=] & _)%list_elem_of_fmap. }
  rewrite main_confirm_cases.
  destruct (decide (Getenv world envDisablePrompts = [])) as [Henv|Henv].
  - destruct (quiet fl); simpl.
    + split; [done|]. by intros [_ [=]].
    + split; [done|]. intros _. right. apply elem_of_app. right.
      right. left.
  - simpl. split; [by intros ?%elem_of_nil|]. by intros [? _].
Qed.

Lemma main_confirm_prompts_iff_witness :
  ReadPrompt ∈ (main_confirm (sampleWorld [] []) flagDefaults [str "dev"]).1.
Proof.
  apply (proj2 (main_confirm_prompts_iff (sampleWorld [] []) flagDefaults
                  [str "dev"])).
  split; reflexivity.
Defined.

(** X18. The loop over the positional arguments parses the patterns in
    command-line order and appends the filters in that order; at the first
    pattern that [parseFilter] rejects, the run prints that error and exits
    with status 1, the later patterns unseen. *)
Theorem parseFilters_in_order (world : World) (args : list bytes)
    (filters parsed : list filter) :
  Forall2 (λ arg f, parseFilter world arg = inl f) args parsed →
  parseFilters world args filters = ([], Some (filters ++ parsed)) ∧
  ∀ bad err rest,
    parseFilter world bad = inr err →
    parseFilters world (args ++ bad :: rest) filters
    = ([Stderr (red world (str "error: ") ++ err ++ [nl]); Exit 1], None).
Proof.
  intros Hall. revert filters.
  induction Hall as [|arg f args parsed Hf _ IH]; intros filters.
  - split; [by rewrite app_nil_r|]. intros bad err rest Hbad. simpl.
    by rewrite Hbad.
  - simpl. rewrite Hf. destruct (IH (filters ++ [f])) as [Hok Hbad].
    split; [by rewrite Hok, <- app_assoc|]. apply Hbad.
Qed.

Lemma parseFilters_in_order_witness :
  parseFilters (sampleWorld [] []) [str "dev"; str "prod"] []
  = ([], Some [ {| kind := Exact; negate := false; pattern := str "dev" |};
                {| kind := Exact; negate := false; pattern := str "prod" |} ]).
Proof.
  apply (proj1 (parseFilters_in_order (sampleWorld [] []) [str "dev"; str "prod"] []
                  [ {| kind := Exact; negate := false; pattern := str "dev" |};
                    {| kind := Exact; negate := false; pattern := str "prod" |} ]
                  ltac:(repeat constructor))).
Defined.
